(** * UTXO incubator (nursery), stray output pool and contract outputs

    A shallow embedding of the Go sources of the UTXO nursery
    ([package nursery]), of the stray output pool ([package
    strayoutputpool]) and of the contract-court spendable output
    ([package contractcourt]), together with the properties of the
    specification that were checked against them.

    Conventions.
    - Fixed-width integers are [Z] with the wrap-around written out
      ([wrap_u32], [wrap_i64]); bytes are [Byte.byte].
    - An [io.Reader] is modelled as the list of bytes still to be read.
      Every decoder of the sources is fed a [bytes.Reader]; its [Read] and
      the helpers [io.ReadFull], [io.LimitReader] follow the Go standard
      library.
    - External collaborators (fee estimator, signer, wallet script
      generator, broadcast endpoint, chain notifier) act on an abstract
      external state [Ext]; every function that talks to them threads that
      state explicitly.
    - Go semantics is that of the language version the sources were written
      for: a [for ... range] loop has a single iteration variable, so
      [&input] taken in different iterations is one and the same address. *)

From stdpp Require Import base option list sorting gmap.
From Stdlib Require Import ZArith Lia Strings.Byte.

Local Open Scope Z_scope.

(** ** Errors and results *)

(** The error values the modelled code can return.  [ErrExternal n] stands
    for any other error produced by an external collaborator. *)
Inductive error : Type :=
| EOF
| ErrUnexpectedEOF
| ErrNonCanonicalVarInt
| ErrVarBytesTooLong
| ErrNoTxInputs
| ErrNoTxOutputs
| ErrTxTooBig
| ErrBadTxOutValue
| ErrDuplicateTxInputs
| ErrBadCoinbaseScriptLen
| ErrBadTxInput
| ErrDoubleSpend
| ErrContractNotFound
| ErrImmutableFinalizedTx
| ErrPanic
| ErrExternal (code : nat).

#[global] Instance error_eq_dec : EqDecision error.
Proof. solve_decision. Defined.

Inductive Result (A : Type) : Type :=
| Ok (a : A)
| Err (e : error).
Arguments Ok {A} a.
Arguments Err {A} e.

Definition is_Err {A} (r : Result A) : Prop :=
  match r with Ok _ => False | Err _ => True end.

#[global] Instance res_ret : MRet Result := fun _ a => Ok a.

#[global] Instance res_bind : MBind Result := fun _ _ k r =>
  match r with
  | Ok a => k a
  | Err e => Err e
  end.

(** ** Bytes and fixed-width integers *)

Abbreviation byte := Byte.byte.

#[global] Instance byte_eq_decision : EqDecision byte := Byte.byte_eq_dec.

Definition byte_to_Z (b : byte) : Z := Z.of_N (Byte.to_N b).

(** Go's conversion [byte(v)]: the low eight bits. *)
Definition byte_of_Z (v : Z) : byte :=
  default "000"%byte (Byte.of_N (Z.to_N (v mod 256))).

Definition wrap_u16 (v : Z) : Z := v mod 2 ^ 16.
Definition wrap_u32 (v : Z) : Z := v mod 2 ^ 32.
Definition wrap_u64 (v : Z) : Z := v mod 2 ^ 64.

(** [int64(x)] for an unsigned or overflowed value: two's complement. *)
Definition wrap_i64 (v : Z) : Z := (v + 2 ^ 63) mod 2 ^ 64 - 2 ^ 63.

Definition is_u16 (v : Z) : Prop := 0 <= v < 2 ^ 16.
Definition is_u32 (v : Z) : Prop := 0 <= v < 2 ^ 32.
Definition is_i64 (v : Z) : Prop := - 2 ^ 63 <= v < 2 ^ 63.

Definition zeros (n : nat) : list byte := replicate n "000"%byte.

(** *** [encoding/binary] *)

Module binary.

(** [binary.BigEndian.PutUint16/32/64]. *)
Definition PutUint16 (v : Z) : list byte :=
  [byte_of_Z (v ≫ 8); byte_of_Z v].

Definition PutUint32 (v : Z) : list byte :=
  [byte_of_Z (v ≫ 24); byte_of_Z (v ≫ 16); byte_of_Z (v ≫ 8); byte_of_Z v].

Definition PutUint64 (v : Z) : list byte :=
  [byte_of_Z (v ≫ 56); byte_of_Z (v ≫ 48); byte_of_Z (v ≫ 40);
   byte_of_Z (v ≫ 32); byte_of_Z (v ≫ 24); byte_of_Z (v ≫ 16);
   byte_of_Z (v ≫ 8); byte_of_Z v].

(** [b[i]] of a Go slice; the decoders below are only applied to
    buffers of the right length, where the default is never used. *)
Definition at_ (b : list byte) (i : nat) : Z :=
  byte_to_Z (default "000"%byte (b !! i)).

(** [binary.BigEndian.Uint16/32/64]. *)
Definition Uint16 (b : list byte) : Z :=
  Z.lor (at_ b 1) (at_ b 0 ≪ 8).

Definition Uint32 (b : list byte) : Z :=
  Z.lor (Z.lor (Z.lor (at_ b 3) (at_ b 2 ≪ 8)) (at_ b 1 ≪ 16)) (at_ b 0 ≪ 24).

Definition Uint64 (b : list byte) : Z :=
  Z.lor (Z.lor (Z.lor (Z.lor (Z.lor (Z.lor (Z.lor
    (at_ b 7) (at_ b 6 ≪ 8)) (at_ b 5 ≪ 16)) (at_ b 4 ≪ 24))
    (at_ b 3 ≪ 32)) (at_ b 2 ≪ 40)) (at_ b 1 ≪ 48)) (at_ b 0 ≪ 56).

(** Little-endian forms, used by btcd's variable-length integers. *)
Definition PutUintLE (n : nat) (v : Z) : list byte :=
  (fun i => byte_of_Z (v ≫ (8 * Z.of_nat i))) <$> seq 0 n.

Definition UintLE (b : list byte) : Z :=
  foldr (fun x acc => Z.lor (byte_to_Z x) (acc ≪ 8)) 0 b.

(** [binary.Write(w, order, v)] for a [bool]. *)
Definition Write_bool (v : bool) : list byte :=
  [if v then "001"%byte else "000"%byte].

End binary.

(** ** Readers *)

(** What is left to read, and a computation that consumes some of it. *)
Definition Stream := list byte.
Definition Reader (A : Type) : Type := Stream -> Result (A * Stream).

(** The outcome of a read that hit the end of the data: an error, or a
    value with nothing left to read. *)
Definition short_or_drained {A} (r : Result (A * Stream)) : Prop :=
  is_Err r ∨ exists a, r = Ok (a, []).

Module io.

(** [Read(p)] of a [bytes.Reader], with [len(p) = n], [p] being a prefix of
    the buffer [buf]: at the end of the data it fails with [io.EOF];
    otherwise it copies as many bytes as are available, at most [n], and
    reports no error, also when fewer than [n] bytes were copied.  The
    bytes of [buf] that were not overwritten keep their old contents. *)
Definition Read (n : nat) (buf : list byte) : Reader (list byte) :=
  fun r =>
    match r with
    | [] => Err EOF
    | _ =>
        let got := take n r in
        Ok (got ++ drop (length got) buf, drop n r)
    end.

(** [io.ReadFull(r, buf)] with [len(buf) = n]. *)
Definition ReadFull (n : nat) : Reader (list byte) :=
  fun r =>
    if decide (n = 0%nat) then Ok ([], r)
    else if decide (n ≤ length r)%nat then Ok (take n r, drop n r)
    else match r with
         | [] => Err EOF
         | _ => Err ErrUnexpectedEOF
         end.

(** [io.LimitReader(r, n)]: the wrapped reader sees at most the next [n]
    bytes of [r]; what it consumes is consumed from [r]. *)
Definition LimitReader {A} (n : nat) (rd : Reader A) : Reader A :=
  fun r =>
    let window := take n r in
    match rd window with
    | Ok (a, rest) => Ok (a, drop (length window - length rest)%nat r)
    | Err e => Err e
    end.

(** [binary.Read(r, order, &b)] for a [*bool]. *)
Definition Read_bool : Reader bool :=
  fun r =>
    match ReadFull 1 r with
    | Ok (bs, r') => Ok (bool_decide (binary.at_ bs 0 ≠ 0), r')
    | Err e => Err e
    end.

End io.

(** ** [btcd/wire]: transactions and variable-length fields *)

Module wire.

Record OutPoint : Type := { Hash : list byte; Index : Z }.

#[global] Instance OutPoint_eq_dec : EqDecision OutPoint.
Proof. solve_decision. Defined.

Record TxIn : Type := {
  PreviousOutPoint : OutPoint;
  SignatureScript : list byte;
  Witness : list (list byte);
  Sequence : Z
}.

Record TxOut : Type := { Value : Z; PkScript : list byte }.

Record MsgTx : Type := {
  Version : Z;
  tx_TxIn : list TxIn;
  tx_TxOut : list TxOut;
  LockTime : Z
}.

#[global] Instance TxIn_eq_dec : EqDecision TxIn.
Proof. solve_decision. Defined.
#[global] Instance TxOut_eq_dec : EqDecision TxOut.
Proof. solve_decision. Defined.
#[global] Instance MsgTx_eq_dec : EqDecision MsgTx.
Proof. solve_decision. Defined.

(** The zero value [wire.OutPoint{}]: a [[32]byte] of zeros and index 0. *)
Definition zeroOutPoint : OutPoint := {| Hash := zeros 32; Index := 0 |}.

Definition NewMsgTx (version : Z) : MsgTx :=
  {| Version := version; tx_TxIn := []; tx_TxOut := []; LockTime := 0 |}.

Definition AddTxIn (ti : TxIn) (tx : MsgTx) : MsgTx :=
  {| Version := Version tx; tx_TxIn := tx_TxIn tx ++ [ti];
     tx_TxOut := tx_TxOut tx; LockTime := LockTime tx |}.

Definition AddTxOut (to : TxOut) (tx : MsgTx) : MsgTx :=
  {| Version := Version tx; tx_TxIn := tx_TxIn tx;
     tx_TxOut := tx_TxOut tx ++ [to]; LockTime := LockTime tx |}.

Definition setLockTime (lt : Z) (tx : MsgTx) : MsgTx :=
  {| Version := Version tx; tx_TxIn := tx_TxIn tx;
     tx_TxOut := tx_TxOut tx; LockTime := lt |}.

Definition setWitness (w : list (list byte)) (ti : TxIn) : TxIn :=
  {| PreviousOutPoint := PreviousOutPoint ti;
     SignatureScript := SignatureScript ti;
     Witness := w; Sequence := Sequence ti |}.

(** [tx.TxIn[idx].Witness = w]; an index out of range panics. *)
Definition setTxInWitness (idx : nat) (w : list (list byte)) (tx : MsgTx)
  : Result MsgTx :=
  match tx_TxIn tx !! idx with
  | Some ti =>
      Ok {| Version := Version tx;
            tx_TxIn := <[idx := setWitness w ti]> (tx_TxIn tx);
            tx_TxOut := tx_TxOut tx; LockTime := LockTime tx |}
  | None => Err ErrPanic
  end.

(** [wire.WriteVarInt]. *)
Definition WriteVarInt (val : Z) : list byte :=
  if decide (val < 253) then [byte_of_Z val]
  else if decide (val <= 65535) then "253"%byte :: binary.PutUintLE 2 val
  else if decide (val <= 4294967295) then "254"%byte :: binary.PutUintLE 4 val
  else "255"%byte :: binary.PutUintLE 8 val.

(** [wire.ReadVarInt]: the discriminant byte, then 0, 2, 4 or 8 bytes; an
    encoding that is longer than necessary is refused. *)
Definition ReadVarInt : Reader Z :=
  fun r =>
    '(d, r) ← io.ReadFull 1 r;
    let discriminant := binary.at_ d 0 in
    if decide (discriminant = 255) then
      '(b, r) ← io.ReadFull 8 r;
      let rv := binary.UintLE b in
      if decide (rv < 4294967296) then Err ErrNonCanonicalVarInt else Ok (rv, r)
    else if decide (discriminant = 254) then
      '(b, r) ← io.ReadFull 4 r;
      let rv := binary.UintLE b in
      if decide (rv < 65536) then Err ErrNonCanonicalVarInt else Ok (rv, r)
    else if decide (discriminant = 253) then
      '(b, r) ← io.ReadFull 2 r;
      let rv := binary.UintLE b in
      if decide (rv < 253) then Err ErrNonCanonicalVarInt else Ok (rv, r)
    else Ok (discriminant, r).

(** [wire.WriteVarBytes(w, pver, bytes)]. *)
Definition WriteVarBytes (b : list byte) : list byte :=
  WriteVarInt (Z.of_nat (length b)) ++ b.

(** [wire.ReadVarBytes(r, pver, maxAllowed, fieldName)]. *)
Definition ReadVarBytes (maxAllowed : Z) : Reader (list byte) :=
  fun r =>
    '(count, r) ← ReadVarInt r;
    if decide (maxAllowed < count) then Err ErrVarBytesTooLong
    else io.ReadFull (Z.to_nat count) r.

(** [wire.VarIntSerializeSize]. *)
Definition VarIntSerializeSize (val : Z) : Z :=
  if decide (val < 253) then 1
  else if decide (val <= 65535) then 3
  else if decide (val <= 4294967295) then 5
  else 9.

Definition TxIn_SerializeSize (ti : TxIn) : Z :=
  40 + VarIntSerializeSize (Z.of_nat (length (SignatureScript ti)))
     + Z.of_nat (length (SignatureScript ti)).

Definition TxOut_SerializeSize (to : TxOut) : Z :=
  8 + VarIntSerializeSize (Z.of_nat (length (PkScript to)))
    + Z.of_nat (length (PkScript to)).

(** [(msg *MsgTx) SerializeSizeStripped]. *)
Definition SerializeSizeStripped (tx : MsgTx) : Z :=
  8 + VarIntSerializeSize (Z.of_nat (length (tx_TxIn tx)))
    + VarIntSerializeSize (Z.of_nat (length (tx_TxOut tx)))
    + foldr (fun ti n => TxIn_SerializeSize ti + n) 0 (tx_TxIn tx)
    + foldr (fun to n => TxOut_SerializeSize to + n) 0 (tx_TxOut tx).

End wire.

(** ** [btcd/blockchain]: context-free transaction checks *)

Module blockchain.

Definition MaxBlockBaseSize : Z := 1000000.
Definition MaxSatoshi : Z := 2100000000000000.
Definition MinCoinbaseScriptLen : Z := 2.
Definition MaxCoinbaseScriptLen : Z := 100.
Definition MaxUint32 : Z := 4294967295.

Definition isNullOutpoint (o : wire.OutPoint) : bool :=
  bool_decide (wire.Index o = MaxUint32 ∧ wire.Hash o = zeros 32).

Definition IsCoinBaseTx (tx : wire.MsgTx) : bool :=
  match wire.tx_TxIn tx with
  | [ti] => isNullOutpoint (wire.PreviousOutPoint ti)
  | _ => false
  end.

(** The loop over the outputs: each value and the running total must lie
    in [[0, MaxSatoshi]]; the total is an [int64] and wraps. *)
Fixpoint checkOutputValues (total : Z) (outs : list wire.TxOut) : option error :=
  match outs with
  | [] => None
  | to :: outs =>
      let satoshi := wire.Value to in
      if decide (satoshi < 0) then Some ErrBadTxOutValue
      else if decide (MaxSatoshi < satoshi) then Some ErrBadTxOutValue
      else
        let total := wrap_i64 (total + satoshi) in
        if decide (total < 0) then Some ErrBadTxOutValue
        else if decide (MaxSatoshi < total) then Some ErrBadTxOutValue
        else checkOutputValues total outs
  end.

(** The loop over the inputs with the set of outpoints already seen. *)
Fixpoint checkDuplicateInputs (seen : list wire.OutPoint) (ins : list wire.TxIn)
  : option error :=
  match ins with
  | [] => None
  | ti :: ins =>
      if decide (wire.PreviousOutPoint ti ∈ seen) then Some ErrDuplicateTxInputs
      else checkDuplicateInputs (wire.PreviousOutPoint ti :: seen) ins
  end.

(** [blockchain.CheckTransactionSanity]; [None] is Go's [nil] error. *)
Definition CheckTransactionSanity (tx : wire.MsgTx) : option error :=
  if decide (wire.tx_TxIn tx = []) then Some ErrNoTxInputs
  else if decide (wire.tx_TxOut tx = []) then Some ErrNoTxOutputs
  else if decide (MaxBlockBaseSize < wire.SerializeSizeStripped tx)
  then Some ErrTxTooBig
  else
    match checkOutputValues 0 (wire.tx_TxOut tx) with
    | Some e => Some e
    | None =>
        match checkDuplicateInputs [] (wire.tx_TxIn tx) with
        | Some e => Some e
        | None =>
            if IsCoinBaseTx tx then
              match wire.tx_TxIn tx with
              | ti :: _ =>
                  let slen := Z.of_nat (length (wire.SignatureScript ti)) in
                  if decide (slen < MinCoinbaseScriptLen ∨ MaxCoinbaseScriptLen < slen)
                  then Some ErrBadCoinbaseScriptLen else None
              | [] => None
              end
            else if existsb (fun ti => isNullOutpoint (wire.PreviousOutPoint ti))
                            (wire.tx_TxIn tx)
            then Some ErrBadTxInput
            else None
        end
    end.

End blockchain.

(** ** [lnwallet]: the parts the modelled packages rely on *)

Module lnwallet.

(** Modelled from the spec: the witness-type constants of [lnwallet] are
    not among the sources.  The specification names the kinds
    ([CommitmentTimeLock], [HtlcOfferedTimeoutSecondLevel],
    [HtlcAcceptedSuccessSecondLevel], [HtlcOfferedRemoteTimeout],
    [HtlcAcceptedRemoteSuccess]); a witness type is a [uint16] and the
    values below follow the declaration order of the package.  Only their
    being pairwise distinct matters to the code that switches on them. *)
Definition WitnessType : Type := Z.
Definition CommitmentTimeLock : WitnessType := 0.
Definition CommitmentNoDelay : WitnessType := 1.
Definition CommitmentRevoke : WitnessType := 2.
Definition HtlcOfferedRevoke : WitnessType := 3.
Definition HtlcAcceptedRevoke : WitnessType := 4.
Definition HtlcOfferedTimeoutSecondLevel : WitnessType := 5.
Definition HtlcAcceptedSuccessSecondLevel : WitnessType := 6.
Definition HtlcOfferedRemoteTimeout : WitnessType := 7.
Definition HtlcAcceptedRemoteSuccess : WitnessType := 8.

Definition knownWitnessTypes : list WitnessType :=
  [CommitmentTimeLock; CommitmentNoDelay; CommitmentRevoke; HtlcOfferedRevoke;
   HtlcAcceptedRevoke; HtlcOfferedTimeoutSecondLevel;
   HtlcAcceptedSuccessSecondLevel; HtlcOfferedRemoteTimeout;
   HtlcAcceptedRemoteSuccess].

(** The sign descriptor and its codec ([WriteSignDescriptor],
    [ReadSignDescriptor]) are external to the modelled packages. *)
Class SignDescCodec : Type := {
  SignDescriptor : Type;
  SignDescriptor_eq_dec :: EqDecision SignDescriptor;
  WriteSignDescriptor : SignDescriptor -> list byte;
  ReadSignDescriptor : Reader SignDescriptor
}.

(** Modelled from the spec: [lnwallet.BaseOutput] is not among the
    sources.  It carries the essential attributes of a spendable output,
    {amount, outpoint, witness-kind, sign-descriptor}, as built by
    [NewBaseOutput(amt, outpoint, witnessType, signDesc)] and read back
    by the accessors [Amount], [OutPoint], [WitnessType], [SignDesc]. *)
Record BaseOutput `{SignDescCodec} : Type := NewBaseOutput {
  Amount : Z;
  OutPoint : wire.OutPoint;
  witnessType : WitnessType;
  SignDesc : SignDescriptor
}.

Arguments NewBaseOutput {_} _ _ _ _.

#[global] Instance BaseOutput_eq_dec `{SignDescCodec} : EqDecision BaseOutput.
Proof. solve_decision. Defined.

(** The serialisation of a [BaseOutput] ([Encode]/[Decode]) is external
    to the modelled packages; [Decode] works on a receiver. *)
Class BaseOutputCodec `{SignDescCodec} : Type := {
  BaseOutput_Encode : BaseOutput -> Result (list byte);
  BaseOutput_Decode : BaseOutput -> Reader BaseOutput
}.

(** [lnwallet.TxWeightEstimator] with [SatPerKWeight.FeeForWeight]:
    external; the zero value of the estimator is [emptyEstimator]. *)
Class WeightModel : Type := {
  TxWeightEstimator : Type;
  emptyEstimator : TxWeightEstimator;
  AddP2WKHOutput : TxWeightEstimator -> TxWeightEstimator;
  AddWitnessInputByType : WitnessType -> TxWeightEstimator -> TxWeightEstimator;
  Weight : TxWeightEstimator -> Z;
  VSize : TxWeightEstimator -> Z;
  FeeForWeight : Z -> Z -> Z
}.

End lnwallet.

(** ** [package nursery]: output records and their encoding *)

Module nursery.

Section Outputs.
Context `{SDC : lnwallet.SignDescCodec}.

Record KidOutput : Type := {
  BaseOutput : lnwallet.BaseOutput;
  originChanPoint : wire.OutPoint;
  isHtlc : bool;
  blocksToMaturity : Z;
  absoluteMaturity : Z;
  confHeight : Z
}.

Record BabyOutput : Type := {
  expiry : Z;
  (** [timeoutTx *wire.MsgTx]; [None] is the nil pointer. *)
  timeoutTx : option wire.MsgTx;
  baby_KidOutput : KidOutput
}.

#[global] Instance KidOutput_eq_dec : EqDecision KidOutput.
Proof. solve_decision. Defined.
#[global] Instance BabyOutput_eq_dec : EqDecision BabyOutput.
Proof. solve_decision. Defined.

(** Accessors promoted from the embedded [BaseOutput]. *)
Definition Amount (k : KidOutput) : Z := lnwallet.Amount (BaseOutput k).
Definition OutPoint (k : KidOutput) : wire.OutPoint :=
  lnwallet.OutPoint (BaseOutput k).
Definition WitnessType (k : KidOutput) : lnwallet.WitnessType :=
  lnwallet.witnessType (BaseOutput k).
Definition SignDesc (k : KidOutput) : lnwallet.SignDescriptor :=
  lnwallet.SignDesc (BaseOutput k).
Definition OriginChanPoint (k : KidOutput) : wire.OutPoint := originChanPoint k.
Definition BlocksToMaturity (k : KidOutput) : Z := blocksToMaturity k.
Definition ConfHeight (k : KidOutput) : Z := confHeight k.

Definition SetConfHeight (height : Z) (k : KidOutput) : KidOutput :=
  {| BaseOutput := BaseOutput k; originChanPoint := originChanPoint k;
     isHtlc := isHtlc k; blocksToMaturity := blocksToMaturity k;
     absoluteMaturity := absoluteMaturity k; confHeight := height |}.

(** The zero value [KidOutput{}] but for the sign descriptor, whose zero
    value [sd0] is the caller's. *)
Definition zeroKidOutput (sd0 : lnwallet.SignDescriptor) : KidOutput :=
  {| BaseOutput := lnwallet.NewBaseOutput 0 wire.zeroOutPoint 0 sd0;
     originChanPoint := wire.zeroOutPoint; isHtlc := false;
     blocksToMaturity := 0; absoluteMaturity := 0; confHeight := 0 |}.

(** Go's [copy(dst, src)]: the first [min(len dst, len src)] bytes. *)
Definition copy (dst src : list byte) : list byte :=
  take (length dst) src ++ drop (length src) dst.

(** [writeOutpoint]: the hash goes through [wire.WriteVarBytes], so it is
    preceded by its length (one byte, 32), then the index (u32 BE). *)
Definition writeOutpoint (o : wire.OutPoint) : list byte :=
  wire.WriteVarBytes (wire.Hash o) ++ binary.PutUint32 (wire.Index o).

(** [readOutpoint(r, o)] on the receiver [o]. *)
Definition readOutpoint (o : wire.OutPoint) : Reader wire.OutPoint :=
  fun r =>
    '(txid, r) ← wire.ReadVarBytes 32 r;
    let hash := copy (wire.Hash o) txid in
    '(scratch, r) ← io.Read 4 (zeros 4) r;
    Ok ({| wire.Hash := hash; wire.Index := binary.Uint32 scratch |}, r).

(** [(k *KidOutput) Encode(w)]; the writer is a byte buffer, which never
    fails, so the result is the bytes written. *)
Definition KidOutput_Encode (k : KidOutput) : list byte :=
  binary.PutUint64 (wrap_u64 (Amount k))
  ++ writeOutpoint (OutPoint k)
  ++ writeOutpoint (OriginChanPoint k)
  ++ binary.Write_bool (isHtlc k)
  ++ binary.PutUint32 (BlocksToMaturity k)
  ++ binary.PutUint32 (absoluteMaturity k)
  ++ binary.PutUint32 (ConfHeight k)
  ++ binary.PutUint16 (wrap_u16 (WitnessType k))
  ++ lnwallet.WriteSignDescriptor (SignDesc k).

(** [(k *KidOutput) Decode(r)] on the receiver [k]. *)
Definition KidOutput_Decode (k : KidOutput) : Reader KidOutput :=
  fun r =>
    let scratch := zeros 8 in
    '(scratch, r) ← io.Read 8 scratch r;
    let amt := wrap_i64 (binary.Uint64 scratch) in
    '(outpoint, r) ← io.LimitReader 40 (readOutpoint wire.zeroOutPoint) r;
    '(origin, r) ← io.LimitReader 40 (readOutpoint (originChanPoint k)) r;
    '(htlc, r) ← io.Read_bool r;
    '(scratch, r) ← io.Read 4 scratch r;
    let btm := binary.Uint32 (take 4 scratch) in
    '(scratch, r) ← io.Read 4 scratch r;
    let absm := binary.Uint32 (take 4 scratch) in
    '(scratch, r) ← io.Read 4 scratch r;
    let conf := binary.Uint32 (take 4 scratch) in
    '(scratch, r) ← io.Read 2 scratch r;
    let wt := binary.Uint16 (take 2 scratch) in
    '(signDesc, r) ← lnwallet.ReadSignDescriptor r;
    Ok ({| BaseOutput := lnwallet.NewBaseOutput amt outpoint wt signDesc;
           originChanPoint := origin; isHtlc := htlc;
           blocksToMaturity := btm; absoluteMaturity := absm;
           confHeight := conf |}, r).

(** [NewDecodedKidOutput]: decode into a fresh [KidOutput{}]. *)
Definition NewDecodedKidOutput (sd0 : lnwallet.SignDescriptor) : Reader KidOutput :=
  KidOutput_Decode (zeroKidOutput sd0).

(** [wire.MsgTx.Serialize]/[Deserialize]: external codec. *)
Class TxCodec : Type := {
  Serialize : wire.MsgTx -> list byte;
  Deserialize : Reader wire.MsgTx
}.
Context `{TXC : TxCodec}.

(** [(bo *BabyOutput) Encode(w)]; serialising through a nil [timeoutTx]
    panics. *)
Definition BabyOutput_Encode (bo : BabyOutput) : Result (list byte) :=
  match timeoutTx bo with
  | None => Err ErrPanic
  | Some tx =>
      Ok (binary.PutUint32 (expiry bo) ++ Serialize tx
          ++ KidOutput_Encode (baby_KidOutput bo))
  end.

(** [(bo *BabyOutput) Decode(r)] on the receiver [bo]. *)
Definition BabyOutput_Decode (bo : BabyOutput) : Reader BabyOutput :=
  fun r =>
    '(scratch, r) ← io.Read 4 (zeros 4) r;
    let exp := binary.Uint32 scratch in
    '(tx, r) ← Deserialize r;
    '(kid, r) ← KidOutput_Decode (baby_KidOutput bo) r;
    Ok ({| expiry := exp; timeoutTx := Some tx; baby_KidOutput := kid |}, r).

(** **** Well-formed values and assumptions on the external codecs *)

(** The invariants of the Go types: a hash is a [[32]byte], an index a
    [uint32], an amount an [int64], a witness type a [uint16]. *)
Definition wf_OutPoint (o : wire.OutPoint) : Prop :=
  length (wire.Hash o) = 32%nat ∧ is_u32 (wire.Index o).

Definition wf_KidOutput (k : KidOutput) : Prop :=
  is_i64 (Amount k) ∧ wf_OutPoint (OutPoint k)
  ∧ wf_OutPoint (originChanPoint k)
  ∧ is_u32 (blocksToMaturity k) ∧ is_u32 (absoluteMaturity k)
  ∧ is_u32 (confHeight k) ∧ is_u16 (WitnessType k).

Definition wf_BabyOutput (bo : BabyOutput) : Prop :=
  is_u32 (expiry bo) ∧ wf_KidOutput (baby_KidOutput bo).

(** What decoding needs of the receiver it decodes into. *)
Definition wf_receiver (k0 : KidOutput) : Prop :=
  length (wire.Hash (originChanPoint k0)) = 32%nat.

(** The sign-descriptor codec reads back what it wrote for [sd], leaving
    the rest of the stream. *)
Definition sign_desc_roundtrips (sd : lnwallet.SignDescriptor) : Prop :=
  forall tl,
    lnwallet.ReadSignDescriptor (lnwallet.WriteSignDescriptor sd ++ tl)
    = Ok (sd, tl).

(** The sign-descriptor decoder fails at the end of the stream and on
    every truncated encoding of [sd]. *)
Definition sign_desc_strict (sd : lnwallet.SignDescriptor) : Prop :=
  is_Err (lnwallet.ReadSignDescriptor [])
  ∧ forall q, q `prefix_of` lnwallet.WriteSignDescriptor sd ->
              q ≠ lnwallet.WriteSignDescriptor sd ->
              is_Err (lnwallet.ReadSignDescriptor q).

(** The transaction codec reads back what it wrote for [tx]. *)
Definition tx_roundtrips (tx : wire.MsgTx) : Prop :=
  forall tl, Deserialize (Serialize tx ++ tl) = Ok (tx, tl).

End Outputs.

(** *** The nursery store *)

Section Store.
Context `{SDC : lnwallet.SignDescCodec}.

(** Modelled from the spec: the implementation of the [Store] interface is
    not among the sources.  The state follows the specification of the
    nursery store: every persisted output is in exactly one of the buckets
    CRIB, PSCL, KNDR, GRAD; crib outputs are indexed at their expiry and
    kindergarten outputs at the height they were indexed at when they
    entered the bucket; [finalized] is the sub-bucket of finalized sweep
    transactions per height (an absent key is a nil transaction); the two
    heights are [LastFinalizedHeight] and [LastGraduatedHeight].  The
    per-height index has an entry iff some output matures at the height,
    so it is derived from [crib] and [kndr]. *)
Record NurseryStore : Type := {
  crib : list BabyOutput;
  pscl : list KidOutput;
  kndr : list (Z * KidOutput);
  grad : list KidOutput;
  finalized : gmap Z wire.MsgTx;
  lastFinalizedHeight : Z;
  lastGraduatedHeight : Z
}.

Definition emptyStore : NurseryStore :=
  {| crib := []; pscl := []; kndr := []; grad := []; finalized := ∅;
     lastFinalizedHeight := 0; lastGraduatedHeight := 0 |}.

(** Modelled from the spec: [FetchClass(height)] returns the finalized
    sweep transaction of the height, if any, the kindergarten outputs and
    the crib outputs maturing at the height. *)
Definition FetchClass (height : Z) (s : NurseryStore)
  : option wire.MsgTx * list KidOutput * list BabyOutput :=
  (finalized s !! height,
   snd <$> filter (fun hk => fst hk = height) (kndr s),
   filter (fun b => expiry b = height) (crib s)).

(** Modelled from the spec: [FinalizeKinder(height, tx?)] persists a
    finalized sweep transaction for a height; [tx] may be nil.  It sets
    [LastFinalizedHeight := max(LastFinalizedHeight, height)] and rejects
    the overwrite when [height ≤ LastFinalizedHeight] and a non-nil
    transaction is already stored. *)
Definition FinalizeKinder (height : Z) (tx : option wire.MsgTx) (s : NurseryStore)
  : Result NurseryStore :=
  if decide (height <= lastFinalizedHeight s ∧ is_Some (finalized s !! height))
  then Err ErrImmutableFinalizedTx
  else Ok {| crib := crib s; pscl := pscl s; kndr := kndr s; grad := grad s;
             finalized := match tx with
                          | Some t => <[height := t]> (finalized s)
                          | None => delete height (finalized s)
                          end;
             lastFinalizedHeight := Z.max (lastFinalizedHeight s) height;
             lastGraduatedHeight := lastGraduatedHeight s |}.

(** Modelled from the spec: [GraduateHeight(height)] sets
    [LastGraduatedHeight := height] and prunes the row of the height
    index (derived here, so nothing else changes). *)
Definition GraduateHeight (height : Z) (s : NurseryStore) : NurseryStore :=
  {| crib := crib s; pscl := pscl s; kndr := kndr s; grad := grad s;
     finalized := finalized s;
     lastFinalizedHeight := lastFinalizedHeight s;
     lastGraduatedHeight := height |}.

(** Modelled from the spec: [GraduateKinder(height)] renames all KNDR
    entries indexed at the height to GRAD. *)
Definition GraduateKinder (height : Z) (s : NurseryStore) : NurseryStore :=
  {| crib := crib s; pscl := pscl s;
     kndr := filter (fun hk => fst hk ≠ height) (kndr s);
     grad := grad s ++ (snd <$> filter (fun hk => fst hk = height) (kndr s));
     finalized := finalized s;
     lastFinalizedHeight := lastFinalizedHeight s;
     lastGraduatedHeight := lastGraduatedHeight s |}.

(** Modelled from the spec: [Incubate(kids, babies)] inserts the babies
    into CRIB, indexed at their expiry, and the kids into PSCL. *)
Definition Incubate (kids : list KidOutput) (babies : list BabyOutput)
  (s : NurseryStore) : NurseryStore :=
  {| crib := crib s ++ babies; pscl := pscl s ++ kids; kndr := kndr s;
     grad := grad s; finalized := finalized s;
     lastFinalizedHeight := lastFinalizedHeight s;
     lastGraduatedHeight := lastGraduatedHeight s |}.

(** The height a kid is indexed at in KNDR. *)
Definition maturityHeight (kid : KidOutput) : Z :=
  if decide (WitnessType kid = lnwallet.HtlcOfferedRemoteTimeout)
  then absoluteMaturity kid
  else wrap_u32 (confHeight kid + blocksToMaturity kid).

(** Modelled from the spec: [PreschoolToKinder(kid)] moves an output from
    PSCL to KNDR and indexes it at [conf-height + blocks-to-maturity], or
    at [absolute-maturity] for an [HtlcOfferedRemoteTimeout] output; it
    requires a non-zero confirmation height. *)
Definition PreschoolToKinder (kid : KidOutput) (s : NurseryStore)
  : Result NurseryStore :=
  if decide (confHeight kid = 0) then Err ErrContractNotFound
  else Ok {| crib := crib s;
             pscl := filter (fun k => OutPoint k ≠ OutPoint kid) (pscl s);
             kndr := kndr s ++ [(maturityHeight kid, kid)];
             grad := grad s; finalized := finalized s;
             lastFinalizedHeight := lastFinalizedHeight s;
             lastGraduatedHeight := lastGraduatedHeight s |}.

(** Modelled from the spec: [CribToKinder(baby)] moves an output from CRIB
    to KNDR as its embedded kid, indexed at
    [conf-height + blocks-to-maturity]. *)
Definition CribToKinder (baby : BabyOutput) (s : NurseryStore) : NurseryStore :=
  let kid := baby_KidOutput baby in
  {| crib := filter (fun b => OutPoint (baby_KidOutput b) ≠ OutPoint kid) (crib s);
     pscl := pscl s;
     kndr := kndr s ++ [(wrap_u32 (confHeight kid + blocksToMaturity kid), kid)];
     grad := grad s; finalized := finalized s;
     lastFinalizedHeight := lastFinalizedHeight s;
     lastGraduatedHeight := lastGraduatedHeight s |}.

(** Modelled from the spec: [RemoveChannel(cp)] deletes all entries of the
    channel. *)
Definition RemoveChannel (cp : wire.OutPoint) (s : NurseryStore) : NurseryStore :=
  {| crib := filter (fun b => originChanPoint (baby_KidOutput b) ≠ cp) (crib s);
     pscl := filter (fun k => originChanPoint k ≠ cp) (pscl s);
     kndr := filter (fun hk => originChanPoint (snd hk) ≠ cp) (kndr s);
     grad := filter (fun k => originChanPoint k ≠ cp) (grad s);
     finalized := finalized s;
     lastFinalizedHeight := lastFinalizedHeight s;
     lastGraduatedHeight := lastGraduatedHeight s |}.

(** Modelled from the spec: [HeightsBelowOrEqual(h)] is the ordered list
    of the still-active heights up to [h]. *)
Definition HeightsBelowOrEqual (h : Z) (s : NurseryStore) : list Z :=
  merge_sort Z.le
    (remove_dups (filter (fun x => x <= h)
                         ((expiry <$> crib s) ++ (fst <$> kndr s)))).

End Store.

(** *** The incubator *)

Section Incubator.
Context `{SDC : lnwallet.SignDescCodec} `{WM : lnwallet.WeightModel}.

(** [Config]: the subsystems the nursery is instantiated with.  They are
    external collaborators acting on the external state [Ext] (chain,
    wallet, network, stray pool).  The [Store] of the Go [Config] is the
    [NurseryStore] above.  [BuildWitness o tx hashCache idx] is the
    witness generation of a spendable output with the configured signer;
    [hashCache] is the transaction the sighash cache was computed from.
    [GetBestBlock] gives the height as the [int32] it is in Go. *)
Class Config : Type := {
  Ext : Type;
  GetBestBlock : Ext -> Result Z * Ext;
  ConfDepth : Z;
  EstimateFeePerKW : Z -> Ext -> Result Z * Ext;
  GenSweepScript : Ext -> Result (list byte) * Ext;
  RegisterConfirmationsNtfn :
    list byte -> list byte -> Z -> Z -> Ext -> option error * Ext;
  PublishTransaction : wire.MsgTx -> Ext -> option error * Ext;
  BuildWitness :
    lnwallet.BaseOutput -> wire.MsgTx -> wire.MsgTx -> nat -> Ext
    -> Result (list (list byte)) * Ext;
  CutStrayInput : Z -> KidOutput -> Ext -> bool * Ext;
  TxHash : wire.MsgTx -> list byte
}.
Context `{CFG : Config}.

(** The calls the nursery makes to its collaborators and its store, and
    the goroutines it spawns, in the order they happen. *)
Inductive Event : Type :=
| EvGetBestBlock
| EvEstimateFeePerKW (confTarget : Z)
| EvCutStrayInput (feePerKw : Z) (input : KidOutput)
| EvGenSweepScript
| EvBuildWitness (o : wire.OutPoint) (idx : nat)
| EvFinalizeKinder (height : Z) (tx : option wire.MsgTx)
| EvGraduateHeight (height : Z)
| EvPublishTransaction (tx : wire.MsgTx)
| EvRegisterConfirmationsNtfn (txid pkScript : list byte) (confDepth heightHint : Z)
| EvWaitForSweepConf (classHeight : Z) (kids : list KidOutput)
| EvWaitForTimeoutConf (baby : BabyOutput).

(** The state the nursery runs in: the external state, the store, the
    field [bestHeight] of [UtxoNursery], and the events so far. *)
Record World : Type := {
  ext : Ext;
  store : NurseryStore;
  bestHeight : Z;
  trace : list Event
}.

(** A nursery method: it returns a value or an error, and the state it
    leaves behind in both cases. *)
Definition M (A : Type) : Type := World -> Result A * World.

#[global] Instance M_ret : MRet M := fun _ a w => (Ok a, w).

#[global] Instance M_bind : MBind M := fun _ _ k m w =>
  match m w with
  | (Ok a, w') => k a w'
  | (Err e, w') => (Err e, w')
  end.

Definition fail {A} (e : error) : M A := fun w => (Err e, w).

Definition liftResult {A} (r : Result A) : M A := fun w => (r, w).

Definition emit (ev : Event) : M unit := fun w =>
  (Ok tt, {| ext := ext w; store := store w; bestHeight := bestHeight w;
             trace := trace w ++ [ev] |}).

(** A call to a collaborator: logged, then run on the external state. *)
Definition callExt {A} (ev : Event) (f : Ext -> A * Ext) : M A := fun w =>
  let '(a, e) := f (ext w) in
  (Ok a, {| ext := e; store := store w; bestHeight := bestHeight w;
            trace := trace w ++ [ev] |}).

(** The same for a call whose error, if any, is returned to the caller. *)
Definition tryExt {A} (ev : Event) (f : Ext -> Result A * Ext) : M A :=
  r ← callExt ev f; liftResult r.

Definition getStore : M NurseryStore := fun w => (Ok (store w), w).

Definition putStore (s : NurseryStore) : M unit := fun w =>
  (Ok tt, {| ext := ext w; store := s; bestHeight := bestHeight w;
             trace := trace w |}).

Definition setBestHeight (h : Z) : M unit := fun w =>
  (Ok tt, {| ext := ext w; store := store w; bestHeight := h;
             trace := trace w |}).

(** **** Building the sweep transaction *)

(** Pointers to kindergarten outputs are addresses ([nat]) of cells of a
    heap, a finite map from addresses to the values stored there. *)

(** Dereferencing; a dangling pointer is a nil dereference. *)
Definition load (heap : gmap nat KidOutput) (p : nat) : Result KidOutput :=
  match heap !! p with
  | Some k => Ok k
  | None => Err ErrPanic
  end.

(** What the loop of [createSweepTx] builds up: the slices
    [csvOutputs] and [cltvOutputs] hold pointers. *)
Record sweepSets : Type := {
  heap : gmap nat KidOutput;
  csvOutputs : list nat;
  cltvOutputs : list nat;
  weightEstimate : lnwallet.TxWeightEstimator
}.

(** [for _, input := range kgtnOutputs { ... }] of [createSweepTx].  The
    iteration variable [input] is one cell, at address [input]; each
    iteration stores the next element in it, and [&input] is that same
    address in every iteration. *)
Fixpoint rangeKgtnOutputs (feePerKw : Z) (input : nat)
  (kgtnOutputs : list KidOutput) (acc : sweepSets) : M sweepSets :=
  match kgtnOutputs with
  | [] => mret acc
  | k :: kgtnOutputs =>
      let heap' := <[input := k]> (heap acc) in
      cut ← callExt (EvCutStrayInput feePerKw k) (CutStrayInput feePerKw k);
      if (cut : bool) then
        rangeKgtnOutputs feePerKw input kgtnOutputs
          {| heap := heap'; csvOutputs := csvOutputs acc;
             cltvOutputs := cltvOutputs acc;
             weightEstimate := weightEstimate acc |}
      else
        let we := lnwallet.AddWitnessInputByType (WitnessType k)
                    (weightEstimate acc) in
        if decide (WitnessType k = lnwallet.CommitmentTimeLock
                   ∨ WitnessType k = lnwallet.HtlcOfferedTimeoutSecondLevel
                   ∨ WitnessType k = lnwallet.HtlcAcceptedSuccessSecondLevel)
        then
          rangeKgtnOutputs feePerKw input kgtnOutputs
            {| heap := heap'; csvOutputs := csvOutputs acc ++ [input];
               cltvOutputs := cltvOutputs acc; weightEstimate := we |}
        else if decide (WitnessType k = lnwallet.HtlcOfferedRemoteTimeout)
        then
          rangeKgtnOutputs feePerKw input kgtnOutputs
            {| heap := heap'; csvOutputs := csvOutputs acc;
               cltvOutputs := cltvOutputs acc ++ [input];
               weightEstimate := we |}
        else
          rangeKgtnOutputs feePerKw input kgtnOutputs
            {| heap := heap'; csvOutputs := csvOutputs acc;
               cltvOutputs := cltvOutputs acc; weightEstimate := we |}
  end.

(** [totalSum += o.Amount()] over a slice; [btcutil.Amount] is an [int64]. *)
Definition sumAmounts (totalSum : Z) (outputs : list KidOutput) : Z :=
  foldl (fun a o => wrap_i64 (a + Amount o)) totalSum outputs.

Definition csvTxIn (input : KidOutput) : wire.TxIn :=
  {| wire.PreviousOutPoint := OutPoint input; wire.SignatureScript := [];
     wire.Witness := []; wire.Sequence := BlocksToMaturity input |}.

(** A [wire.TxIn] literal without [Sequence]: the zero value. *)
Definition cltvTxIn (input : KidOutput) : wire.TxIn :=
  {| wire.PreviousOutPoint := OutPoint input; wire.SignatureScript := [];
     wire.Witness := []; wire.Sequence := 0 |}.

(** The two witness loops: [addWitness(idx, input)] for consecutive
    indexes starting at [idx]. *)
Fixpoint addWitnesses (hashCache : wire.MsgTx) (idx : nat)
  (inputs : list KidOutput) (sweepTx : wire.MsgTx) : M wire.MsgTx :=
  match inputs with
  | [] => mret sweepTx
  | input :: inputs =>
      witness ← tryExt (EvBuildWitness (OutPoint input) idx)
                  (BuildWitness (BaseOutput input) sweepTx hashCache idx);
      sweepTx ← liftResult (wire.setTxInWitness idx witness sweepTx);
      addWitnesses hashCache (S idx) inputs sweepTx
  end.

(** The body of [populateSweepTx] between the generation of the script
    and the sanity check: the sum of the inputs, the single output, the
    lock time and the inputs, csv first. *)
Definition unsignedSweepTx (pkScript : list byte) (txFee classHeight : Z)
  (csvInputs cltvInputs : list KidOutput) : wire.MsgTx :=
  let totalSum := sumAmounts (sumAmounts 0 csvInputs) cltvInputs in
  let sweepAmt := wrap_i64 (totalSum - txFee) in
  let sweepTx :=
    wire.AddTxOut {| wire.Value := sweepAmt; wire.PkScript := pkScript |}
      (wire.NewMsgTx 2) in
  let sweepTx :=
    if decide (0 < length cltvInputs)%nat
    then wire.setLockTime classHeight sweepTx else sweepTx in
  let sweepTx := foldl (fun tx i => wire.AddTxIn (csvTxIn i) tx) sweepTx csvInputs in
  foldl (fun tx i => wire.AddTxIn (cltvTxIn i) tx) sweepTx cltvInputs.

(** [populateSweepTx]; the inputs are pointers into [heap], dereferenced
    where the Go code calls a method on them. *)
Definition populateSweepTx (txFee classHeight : Z) (heap : gmap nat KidOutput)
  (csvInputs cltvInputs : list nat) : M wire.MsgTx :=
  pkScript ← tryExt EvGenSweepScript GenSweepScript;
  csv ← liftResult (mapM (load heap) csvInputs);
  cltv ← liftResult (mapM (load heap) cltvInputs);
  let sweepTx := unsignedSweepTx pkScript txFee classHeight csv cltv in
  match blockchain.CheckTransactionSanity sweepTx with
  | Some e => fail e
  | None =>
      let hashCache := sweepTx in
      sweepTx ← addWitnesses hashCache 0 csv sweepTx;
      let offset := length csvInputs in
      addWitnesses hashCache offset cltv sweepTx
  end.

(** [createSweepTx]. *)
Definition createSweepTx (kgtnOutputs : list KidOutput) (classHeight : Z)
  : M wire.MsgTx :=
  let estimate := lnwallet.AddP2WKHOutput lnwallet.emptyEstimator in
  feePerKw ← tryExt (EvEstimateFeePerKW 6) (EstimateFeePerKW 6);
  let input : nat := 0%nat in
  acc ← rangeKgtnOutputs feePerKw input kgtnOutputs
          {| heap := ∅; csvOutputs := []; cltvOutputs := [];
             weightEstimate := estimate |};
  let txFee := lnwallet.FeeForWeight feePerKw
                 (lnwallet.VSize (weightEstimate acc)) in
  populateSweepTx txFee classHeight (heap acc) (csvOutputs acc) (cltvOutputs acc).

(** **** Broadcasting and registering for confirmations *)

(** [tx.TxOut[0].PkScript]; an empty output list panics. *)
Definition firstPkScript (tx : wire.MsgTx) : Result (list byte) :=
  match wire.tx_TxOut tx with
  | to :: _ => Ok (wire.PkScript to)
  | [] => Err ErrPanic
  end.

(** A call returning only an error: [nil] lets the caller go on. *)
Definition checkErr (err : option error) : M unit :=
  match err with
  | Some e => fail e
  | None => mret tt
  end.

(** [registerSweepConf]. *)
Definition registerSweepConf (finalTx : wire.MsgTx)
  (kgtnOutputs : list KidOutput) (heightHint : Z) : M unit :=
  let finalTxID := TxHash finalTx in
  pkScript ← liftResult (firstPkScript finalTx);
  err ← callExt
          (EvRegisterConfirmationsNtfn finalTxID pkScript ConfDepth heightHint)
          (RegisterConfirmationsNtfn finalTxID pkScript ConfDepth heightHint);
  checkErr err;;
  emit (EvWaitForSweepConf heightHint kgtnOutputs).

(** [sweepMatureOutputs]. *)
Definition sweepMatureOutputs (classHeight : Z) (finalTx : wire.MsgTx)
  (kgtnOutputs : list KidOutput) : M unit :=
  err ← callExt (EvPublishTransaction finalTx) (PublishTransaction finalTx);
  match err with
  | Some e =>
      if decide (e ≠ ErrDoubleSpend) then fail e
      else registerSweepConf finalTx kgtnOutputs classHeight
  | None => registerSweepConf finalTx kgtnOutputs classHeight
  end.

(** [registerTimeoutConf]. *)
Definition registerTimeoutConf (baby : BabyOutput) (timeoutTx : wire.MsgTx)
  (heightHint : Z) : M unit :=
  let birthTxID := TxHash timeoutTx in
  pkScript ← liftResult (firstPkScript timeoutTx);
  err ← callExt
          (EvRegisterConfirmationsNtfn birthTxID pkScript ConfDepth heightHint)
          (RegisterConfirmationsNtfn birthTxID pkScript ConfDepth heightHint);
  checkErr err;;
  emit (EvWaitForTimeoutConf baby).

(** [sweepCribOutput]; a nil [timeoutTx] panics at the first use. *)
Definition sweepCribOutput (classHeight : Z) (baby : BabyOutput) : M unit :=
  match timeoutTx baby with
  | None => fail ErrPanic
  | Some tx =>
      err ← callExt (EvPublishTransaction tx) (PublishTransaction tx);
      match err with
      | Some e =>
          if decide (e ≠ ErrDoubleSpend) then fail e
          else registerTimeoutConf baby tx classHeight
      | None => registerTimeoutConf baby tx classHeight
      end
  end.

(** [for i := range cribOutputs { sweepCribOutput(h, &cribOutputs[i]) }]. *)
Fixpoint sweepCribOutputs (classHeight : Z) (cribOutputs : list BabyOutput)
  : M unit :=
  match cribOutputs with
  | [] => mret tt
  | baby :: cribOutputs =>
      sweepCribOutput classHeight baby;;
      sweepCribOutputs classHeight cribOutputs
  end.

(** **** Graduating a class *)

(** The call [Store.FinalizeKinder(classHeight, finalTx)]. *)
Definition callFinalizeKinder (classHeight : Z) (finalTx : option wire.MsgTx)
  : M unit :=
  emit (EvFinalizeKinder classHeight finalTx);;
  s ← getStore;
  s' ← liftResult (FinalizeKinder classHeight finalTx s);
  putStore s'.

Definition callGraduateHeight (classHeight : Z) : M unit :=
  emit (EvGraduateHeight classHeight);;
  s ← getStore;
  putStore (GraduateHeight classHeight s).

(** [graduateClass]. *)
Definition graduateClass (classHeight : Z) : M unit :=
  setBestHeight classHeight;;
  s ← getStore;
  let '(finalTx, kgtnOutputs, cribOutputs) := FetchClass classHeight s in
  let lastFinalizedHeight := lastFinalizedHeight s in
  finalTx ←
    (if decide (lastFinalizedHeight < classHeight) then
       finalTx ←
         (if decide (0 < length kgtnOutputs)%nat
          then tx ← createSweepTx kgtnOutputs classHeight; mret (Some tx)
          else mret finalTx);
       callFinalizeKinder classHeight finalTx;;
       mret finalTx
     else mret finalTx);
  match finalTx with
  | Some tx => sweepMatureOutputs classHeight tx kgtnOutputs
  | None => mret tt
  end;;
  sweepCribOutputs classHeight cribOutputs;;
  callGraduateHeight classHeight.

(** [regraduateClass]. *)
Definition regraduateClass (classHeight : Z) : M unit :=
  s ← getStore;
  let '(finalTx, kgtnOutputs, cribOutputs) := FetchClass classHeight s in
  match finalTx with
  | Some tx => sweepMatureOutputs classHeight tx kgtnOutputs
  | None => mret tt
  end;;
  sweepCribOutputs classHeight cribOutputs.

(** [for _, classHeight := range activeHeights { regraduateClass(...) }]. *)
Fixpoint regraduateClasses (activeHeights : list Z) : M unit :=
  match activeHeights with
  | [] => mret tt
  | classHeight :: activeHeights =>
      regraduateClass classHeight;;
      regraduateClasses activeHeights
  end.

(** The loop [for curHeight := lastGradHeight + 1; curHeight <=
    uint32(bestHeight); curHeight++] of [reloadClasses], on [uint32]
    counters.  [fuel] bounds the number of iterations; [None] means that
    the bound was reached before the loop ended. *)
Fixpoint graduateMissed (fuel : nat) (curHeight bestHeight : Z) (w : World)
  : option (Result unit * World) :=
  match fuel with
  | O => None
  | S fuel =>
      if decide (curHeight <= bestHeight) then
        match graduateClass curHeight w with
        | (Ok _, w') =>
            graduateMissed fuel (wrap_u32 (curHeight + 1)) bestHeight w'
        | (Err e, w') => Some (Err e, w')
        end
      else Some (Ok tt, w)
  end.

(** [reloadClasses]. *)
Definition reloadClasses (fuel : nat) (lastGradHeight : Z) (w : World)
  : option (Result unit * World) :=
  let start : M Z :=
    s ← getStore;
    let activeHeights := HeightsBelowOrEqual lastGradHeight s in
    regraduateClasses activeHeights;;
    tryExt EvGetBestBlock GetBestBlock in
  match start w with
  | (Err e, w') => Some (Err e, w')
  | (Ok bestHeight, w') =>
      if decide (lastGradHeight = 0 ∨ wrap_u32 bestHeight = lastGradHeight)
      then Some (Ok tt, w')
      else graduateMissed fuel (wrap_u32 (lastGradHeight + 1))
             (wrap_u32 bestHeight) w'
  end.

(** **** Definitions used to state the properties *)

(** The kindergarten outputs that pass the stray filter of
    [createSweepTx], the filter being consulted in order from the
    external state [e]. *)
Fixpoint strayFilter (feePerKw : Z) (kgtnOutputs : list KidOutput) (e : Ext)
  : list KidOutput :=
  match kgtnOutputs with
  | [] => []
  | k :: kgtnOutputs =>
      let '(cut, e') := CutStrayInput feePerKw k e in
      if (cut : bool) then strayFilter feePerKw kgtnOutputs e'
      else k :: strayFilter feePerKw kgtnOutputs e'
  end.

(** The witness types [createSweepTx] puts among the csv inputs, and the
    one it puts among the cltv inputs. *)
Definition isCsv (k : KidOutput) : Prop :=
  WitnessType k = lnwallet.CommitmentTimeLock
  ∨ WitnessType k = lnwallet.HtlcOfferedTimeoutSecondLevel
  ∨ WitnessType k = lnwallet.HtlcAcceptedSuccessSecondLevel.

Definition isCltv (k : KidOutput) : Prop :=
  WitnessType k = lnwallet.HtlcOfferedRemoteTimeout.

Definition sweepable (k : KidOutput) : Prop := isCsv k ∨ isCltv k.

#[global] Instance isCsv_dec k : Decision (isCsv k).
Proof. unfold isCsv. apply _. Defined.
#[global] Instance isCltv_dec k : Decision (isCltv k).
Proof. unfold isCltv. apply _. Defined.
#[global] Instance sweepable_dec k : Decision (sweepable k).
Proof. unfold sweepable. apply _. Defined.

(** The events that belong to building, signing or finalizing a sweep
    transaction, as opposed to broadcasting a stored one. *)
Definition builds_sweep (ev : Event) : Prop :=
  match ev with
  | EvEstimateFeePerKW _ | EvCutStrayInput _ _ | EvGenSweepScript
  | EvBuildWitness _ _ | EvFinalizeKinder _ _ => True
  | _ => False
  end.

Definition rebroadcast_only (ev : Event) : Prop := ¬ builds_sweep ev.

(** The specification's replay: [graduateClass] for every height of a
    list, in order, stopping at the first error. *)
Fixpoint replayGraduate (heights : list Z) : M unit :=
  match heights with
  | [] => mret tt
  | h :: heights => graduateClass h;; replayGraduate heights
  end.

(** [reloadClasses] in the specification's words: re-register the
    confirmations of every still-active height up to the last graduated
    height [G], read the best height, then replay [graduateClass] for
    every height in [(G, B]]. *)
Definition reloadClasses_spec (G B : Z) : M unit :=
  s ← getStore;
  regraduateClasses (HeightsBelowOrEqual G s);;
  tryExt EvGetBestBlock GetBestBlock;;
  replayGraduate (seqZ (G + 1) (B - G)).

(** Invariant of the store: a height with a stored sweep transaction has
    been finalized. *)
Definition store_inv (s : NurseryStore) : Prop :=
  forall h tx, finalized s !! h = Some tx -> h <= lastFinalizedHeight s.

Definition finalized_kept (s s' : NurseryStore) : Prop :=
  forall h tx, finalized s !! h = Some tx -> finalized s' !! h = Some tx.

Definition stable (s s' : NurseryStore) : Prop :=
  store_inv s -> store_inv s' ∧ finalized_kept s s'.

Definition keeps_store {A} (m : M A) : Prop :=
  forall w, store (m w).2 = store w.

Definition emits (P : Event -> Prop) {A} (m : M A) : Prop :=
  forall w, exists evs, trace (m w).2 = trace w ++ evs ∧ Forall P evs.

Definition store_stable {A} (m : M A) : Prop :=
  forall w, stable (store w) (store (m w).2).

Definition withStore (s : NurseryStore) (w : World) : World :=
  {| ext := ext w; store := s; bestHeight := bestHeight w; trace := trace w |}.

(** What can happen to the nursery between two observations: the
    incubator graduates or regraduates a class; a confirmation waiter
    moves outputs between buckets, or a channel is removed; outputs are
    incubated; the collaborators change state or the node restarts (the
    store is all that persists). *)
Inductive step : World -> World -> Prop :=
| step_graduateClass h w : step w (graduateClass h w).2
| step_regraduateClass h w : step w (regraduateClass h w).2
| step_GraduateKinder h w : step w (withStore (GraduateKinder h (store w)) w)
| step_Incubate kids babies w :
    step w (withStore (Incubate kids babies (store w)) w)
| step_PreschoolToKinder kid s' w :
    PreschoolToKinder kid (store w) = Ok s' -> step w (withStore s' w)
| step_CribToKinder baby w : step w (withStore (CribToKinder baby (store w)) w)
| step_RemoveChannel cp w : step w (withStore (RemoveChannel cp (store w)) w)
| step_environment e bh tr w :
    step w {| ext := e; store := store w; bestHeight := bh; trace := tr |}.

End Incubator.

End nursery.

(** ** [package contractcourt]: contract outputs *)

Module contractcourt.

Section ContractOutput.
Context `{SDC : lnwallet.SignDescCodec} `{BOC : !lnwallet.BaseOutputCodec}.

Record ContractOutput : Type := {
  preimage : list byte;
  BaseOutput : lnwallet.BaseOutput
}.

(** The zero value [ContractOutput{}] over the zero [BaseOutput] [b0]. *)
Definition zeroContractOutput (b0 : lnwallet.BaseOutput) : ContractOutput :=
  {| preimage := zeros 32; BaseOutput := b0 |}.

(** [(s *ContractOutput) Encode(w)]. *)
Definition Encode (s : ContractOutput) : Result (list byte) :=
  b ← lnwallet.BaseOutput_Encode (BaseOutput s);
  Ok (b ++ preimage s).

(** [(s *ContractOutput) Decode(r)] on the receiver [s]: the error of
    [io.ReadFull] is dropped when it is [io.EOF]. *)
Definition Decode (s : ContractOutput) : Reader ContractOutput :=
  fun r =>
    '(b, r) ← lnwallet.BaseOutput_Decode (BaseOutput s) r;
    match io.ReadFull 32 r with
    | Ok (p, r) => Ok ({| preimage := p; BaseOutput := b |}, r)
    | Err e =>
        if decide (e = EOF)
        then Ok ({| preimage := preimage s; BaseOutput := b |}, r)
        else Err e
    end.

(** [NewDecodedContractOutput]. *)
Definition NewDecodedContractOutput (b0 : lnwallet.BaseOutput)
  : Reader ContractOutput :=
  Decode (zeroContractOutput b0).

End ContractOutput.

End contractcourt.

(** ** [package strayoutputpool]: the pool server *)

Module strayoutputpool.

Section Pool.
Context `{WM : lnwallet.WeightModel}.

(** What the pool server is built from: the [lnwallet.SpendableOutput]
    interface (its methods are the four functions below), the
    [store.OutputStore] with its entities, and the collaborators of
    [PoolConfig].  The store is part of the external state [Ext]. *)
Class PoolConfig : Type := {
  Ext : Type;
  SpendableOutput : Type;
  Amount : SpendableOutput -> Z;
  OutPoint : SpendableOutput -> wire.OutPoint;
  WitnessType : SpendableOutput -> lnwallet.WitnessType;
  BuildWitness :
    SpendableOutput -> wire.MsgTx -> wire.MsgTx -> nat -> Ext
    -> Result (list (list byte)) * Ext;
  OutputEntity : Type;
  NewOutputEntity : SpendableOutput -> OutputEntity;
  Output : OutputEntity -> SpendableOutput;
  AddStrayOutput : OutputEntity -> Ext -> option error * Ext;
  FetchAllStrayOutputs : Ext -> Result (list OutputEntity) * Ext;
  GenSweepScript : Ext -> Result (list byte) * Ext;
  EstimateFeePerKW : Z -> Ext -> Result Z * Ext;
  PublishTransaction : wire.MsgTx -> Ext -> option error * Ext
}.
Context `{CFG : PoolConfig}.

(** A method of the pool server, run on the external state. *)
Definition P (A : Type) : Type := Ext -> Result A * Ext.

#[global] Instance P_ret : MRet P := fun _ a e => (Ok a, e).

#[global] Instance P_bind : MBind P := fun _ _ k m e =>
  match m e with
  | (Ok a, e') => k a e'
  | (Err err, e') => (Err err, e')
  end.

Definition pfail {A} (err : error) : P A := fun e => (Err err, e).

Definition ofError (f : Ext -> option error * Ext) : P unit := fun e =>
  match f e with
  | (Some err, e') => (Err err, e')
  | (None, e') => (Ok tt, e')
  end.

(** [AddSpendableOutput]. *)
Definition AddSpendableOutput (output : SpendableOutput) : P unit :=
  ofError (AddStrayOutput (NewOutputEntity output)).

(** The state of the loop of [genSweepTx]. *)
Record sweepState : Type := {
  totalAmt : Z;
  txEstimator : lnwallet.TxWeightEstimator;
  txn : wire.MsgTx
}.

Definition strayTxIn (so : SpendableOutput) : wire.TxIn :=
  {| wire.PreviousOutPoint := OutPoint so; wire.SignatureScript := [];
     wire.Witness := []; wire.Sequence := 0 |}.

(** [for i, sOutput := range strayOutputs { ... }]: the input is added and
    its witness generated at once, on the transaction as it is then;
    [hashCache] was computed from the transaction before the loop. *)
Fixpoint rangeStrayOutputs (hashCache : wire.MsgTx) (i : nat)
  (strayOutputs : list OutputEntity) (st : sweepState) : P sweepState :=
  match strayOutputs with
  | [] => mret st
  | sOutput :: strayOutputs =>
      let so := Output sOutput in
      let est := lnwallet.AddWitnessInputByType (WitnessType so) (txEstimator st) in
      let total := wrap_i64 (totalAmt st + Amount so) in
      let tx := wire.AddTxIn (strayTxIn so) (txn st) in
      witness ← BuildWitness so tx hashCache i;
      tx ← (fun e => (wire.setTxInWitness i witness tx, e));
      rangeStrayOutputs hashCache (S i) strayOutputs
        {| totalAmt := total; txEstimator := est; txn := tx |}
  end.

(** [genSweepTx]. *)
Definition genSweepTx (pkScript : list byte) (strayOutputs : list OutputEntity)
  : P wire.MsgTx :=
  feePerKW ← EstimateFeePerKW 6;
  let txn0 := wire.NewMsgTx 2 in
  let hashCache := txn0 in
  st ← rangeStrayOutputs hashCache 0 strayOutputs
         {| totalAmt := 0;
            txEstimator := lnwallet.AddP2WKHOutput lnwallet.emptyEstimator;
            txn := txn0 |};
  let txFee := lnwallet.FeeForWeight feePerKW (lnwallet.Weight (txEstimator st)) in
  let tx := wire.AddTxOut
              {| wire.Value := wrap_i64 (totalAmt st - txFee);
                 wire.PkScript := pkScript |} (txn st) in
  match blockchain.CheckTransactionSanity tx with
  | Some err => pfail err
  | None => mret tx
  end.

(** [GenSweepTx]. *)
Definition GenSweepTx : P wire.MsgTx :=
  pkScript ← GenSweepScript;
  strayInputs ← FetchAllStrayOutputs;
  genSweepTx pkScript strayInputs.

(** [Sweep]. *)
Definition Sweep : P unit :=
  btx ← GenSweepTx;
  ofError (PublishTransaction btx).

(** **** Definitions used to state the properties *)

(** The signer produces a witness whenever it is asked. *)
Definition signer_total : Prop :=
  forall so tx hc i e, exists wit e', BuildWitness so tx hc i e = (Ok wit, e').

(** The input [ti] at position [idx] claims the stray output [o] and
    carries a witness generated for it at that position. *)
Definition claims (hashCache : wire.MsgTx) (idx : nat) (o : OutputEntity)
  (ti : wire.TxIn) : Prop :=
  wire.PreviousOutPoint ti = OutPoint (Output o)
  ∧ exists ptx e1 e2,
      BuildWitness (Output o) ptx hashCache idx e1 = (Ok (wire.Witness ti), e2).

(** The running total of the amounts, an [int64], from [a]. *)
Definition totalOf (a : Z) (outs : list OutputEntity) : Z :=
  foldl (fun a o => wrap_i64 (a + Amount (Output o))) a outs.

(** The weight estimate after adding the witness weight of every input. *)
Definition estimateOf (est : lnwallet.TxWeightEstimator)
  (outs : list OutputEntity) : lnwallet.TxWeightEstimator :=
  foldl (fun est o => lnwallet.AddWitnessInputByType (WitnessType (Output o)) est)
        est outs.

End Pool.

End strayoutputpool.

(** ** Simulated collaborators and sample data *)

Module sim.

(** A one-byte sign descriptor with its codec. *)
Definition sdc : lnwallet.SignDescCodec :=
  {| lnwallet.SignDescriptor := byte;
     lnwallet.SignDescriptor_eq_dec := byte_eq_decision;
     lnwallet.WriteSignDescriptor := fun sd => [sd];
     lnwallet.ReadSignDescriptor := fun r =>
       '(b, r) ← io.ReadFull 1 r; Ok (default "000"%byte (b !! 0%nat), r) |}.

(** A transaction codec that keeps the version and the lock time (one
    byte each) of a transaction without inputs and outputs. *)
Definition txc : nursery.TxCodec :=
  {| nursery.Serialize := fun tx =>
       [byte_of_Z (wire.Version tx); byte_of_Z (wire.LockTime tx)];
     nursery.Deserialize := fun r =>
       '(b, r) ← io.ReadFull 2 r;
       Ok ({| wire.Version := binary.at_ b 0; wire.tx_TxIn := [];
              wire.tx_TxOut := []; wire.LockTime := binary.at_ b 1 |}, r) |}.

(** Weights in weight units: 124 for the P2WKH output, 300 for an input
    with its witness, 42 for the rest of the transaction. *)
Definition wm : lnwallet.WeightModel :=
  {| lnwallet.TxWeightEstimator := Z;
     lnwallet.emptyEstimator := 0;
     lnwallet.AddP2WKHOutput := fun w => w + 124;
     lnwallet.AddWitnessInputByType := fun _ w => w + 300;
     lnwallet.Weight := fun w => w + 42;
     lnwallet.VSize := fun w => (w + 42 + 3) / 4;
     lnwallet.FeeForWeight := fun feePerKw wu => feePerKw * wu / 1000 |}.

(** A fresh P2WKH script per call: the counter of the wallet. *)
Definition p2wkh (n : nat) : list byte :=
  "000"%byte :: "020"%byte :: replicate 20 (byte_of_Z (Z.of_nat n)).

(** Collaborators of the nursery: the chain is at height [best], a
    broadcast answers [publishErr], the stray filter cuts the outputs
    worth less than [cutBelow]. *)
Definition cfg (best : Z) (publishErr : option error) (cutBelow : Z)
  : @nursery.Config sdc :=
  {| nursery.Ext := nat;
     nursery.GetBestBlock := fun e => (Ok best, e);
     nursery.ConfDepth := 3;
     nursery.EstimateFeePerKW := fun _ e => (Ok 2500, e);
     nursery.GenSweepScript := fun e => (Ok (p2wkh e), S e);
     nursery.RegisterConfirmationsNtfn := fun _ _ _ _ e => (None, e);
     nursery.PublishTransaction := fun _ e => (publishErr, e);
     nursery.BuildWitness := fun o _ _ idx e =>
       (Ok [[byte_of_Z (Z.of_nat idx)]; wire.Hash (@lnwallet.OutPoint sdc o)], e);
     nursery.CutStrayInput := fun _ k e =>
       (bool_decide (@nursery.Amount sdc k < cutBelow), e);
     nursery.TxHash := fun tx => [byte_of_Z (wire.LockTime tx)] |}.

Definition outpoint (n : Z) (index : Z) : wire.OutPoint :=
  {| wire.Hash := replicate 32 (byte_of_Z n); wire.Index := index |}.

Definition chanPoint : wire.OutPoint := outpoint 7 0.

Definition kid (amt : Z) (op : wire.OutPoint) (wt csv cltv conf : Z)
  : @nursery.KidOutput sdc :=
  {| nursery.BaseOutput := @lnwallet.NewBaseOutput sdc amt op wt "001"%byte;
     nursery.originChanPoint := chanPoint;
     nursery.isHtlc := bool_decide (wt = lnwallet.HtlcAcceptedSuccessSecondLevel
                                    ∨ wt = lnwallet.HtlcOfferedRemoteTimeout);
     nursery.blocksToMaturity := csv;
     nursery.absoluteMaturity := cltv;
     nursery.confHeight := conf |}.

(** The outputs of scenario S5 at class height 244: a commitment output
    (csv 144, confirmed at 100) and a remote-timeout output (cltv 244). *)
Definition commitKid : @nursery.KidOutput sdc :=
  kid 500000 (outpoint 1 0) lnwallet.CommitmentTimeLock 144 0 100.

Definition remoteKid : @nursery.KidOutput sdc :=
  kid 30000 (outpoint 2 1) lnwallet.HtlcOfferedRemoteTimeout 0 244 100.

(** An output worth less than the sweep costs. *)
Definition dustKid : @nursery.KidOutput sdc :=
  kid 1000 (outpoint 3 0) lnwallet.CommitmentTimeLock 1 0 243.

(** An output whose witness type the nursery does not sweep. *)
Definition oddKid : @nursery.KidOutput sdc :=
  kid 40000 (outpoint 4 0) lnwallet.CommitmentNoDelay 0 0 100.

(** An output with a witness type that no constant names. *)
Definition unknownKid : @nursery.KidOutput sdc :=
  kid 40000 (outpoint 5 0) 65535 144 0 100.

Definition timeoutTx0 : wire.MsgTx :=
  {| wire.Version := 2; wire.tx_TxIn := []; wire.tx_TxOut := [];
     wire.LockTime := 200 |}.

Definition baby0 : @nursery.BabyOutput sdc :=
  {| nursery.expiry := 200; nursery.timeoutTx := Some timeoutTx0;
     nursery.baby_KidOutput :=
       kid 20000 (outpoint 6 0) lnwallet.HtlcOfferedTimeoutSecondLevel 40 0 0 |}.

(** A signed timeout transaction with one input and one output. *)
Definition timeoutTx1 : wire.MsgTx :=
  {| wire.Version := 2;
     wire.tx_TxIn := [ {| wire.PreviousOutPoint := outpoint 8 0;
                          wire.SignatureScript := [];
                          wire.Witness := [["001"%byte]];
                          wire.Sequence := 0 |} ];
     wire.tx_TxOut := [ {| wire.Value := 20000; wire.PkScript := p2wkh 9 |} ];
     wire.LockTime := 200 |}.

Definition baby1 : @nursery.BabyOutput sdc :=
  {| nursery.expiry := 200; nursery.timeoutTx := Some timeoutTx1;
     nursery.baby_KidOutput :=
       kid 20000 (outpoint 6 0) lnwallet.HtlcOfferedTimeoutSecondLevel 40 0 0 |}.

(** Fresh receivers to decode into. *)
Definition zeroKid : @nursery.KidOutput sdc :=
  @nursery.zeroKidOutput sdc "000"%byte.

Definition zeroBaby : @nursery.BabyOutput sdc :=
  {| nursery.expiry := 0; nursery.timeoutTx := None;
     nursery.baby_KidOutput := zeroKid |}.

(** The nursery at start: nothing stored, nothing has happened. *)
Definition world0 (best : Z) (publishErr : option error) (cutBelow : Z)
  : @nursery.World sdc (cfg best publishErr cutBelow) :=
  {| nursery.ext := 0%nat : @nursery.Ext sdc (cfg best publishErr cutBelow);
     nursery.store := nursery.emptyStore;
     nursery.bestHeight := 0; nursery.trace := [] |}.

(** A [BaseOutput] codec that keeps the witness type (one byte). *)
Definition boc : @lnwallet.BaseOutputCodec sdc :=
  {| lnwallet.BaseOutput_Encode := fun b =>
       Ok [byte_of_Z (@lnwallet.witnessType sdc b)];
     lnwallet.BaseOutput_Decode := fun b0 r =>
       '(x, r) ← io.ReadFull 1 r;
       Ok (@lnwallet.NewBaseOutput sdc (@lnwallet.Amount sdc b0)
             (@lnwallet.OutPoint sdc b0) (binary.at_ x 0)
             (@lnwallet.SignDesc sdc b0), r) |}.

Definition base0 : @lnwallet.BaseOutput sdc :=
  @lnwallet.NewBaseOutput sdc 0 wire.zeroOutPoint 0 "000"%byte.

Definition base8 : @lnwallet.BaseOutput sdc :=
  @lnwallet.NewBaseOutput sdc 0 wire.zeroOutPoint
    lnwallet.HtlcAcceptedRemoteSuccess "000"%byte.

(** Collaborators of the pool: the external state is the list of the
    stored stray outputs. *)
Definition poolCfg : strayoutputpool.PoolConfig :=
  {| strayoutputpool.Ext := list (@lnwallet.BaseOutput sdc);
     strayoutputpool.SpendableOutput := @lnwallet.BaseOutput sdc;
     strayoutputpool.Amount := @lnwallet.Amount sdc;
     strayoutputpool.OutPoint := @lnwallet.OutPoint sdc;
     strayoutputpool.WitnessType := @lnwallet.witnessType sdc;
     strayoutputpool.BuildWitness := fun o _ _ idx e =>
       (Ok [[byte_of_Z (Z.of_nat idx)]; wire.Hash (@lnwallet.OutPoint sdc o)], e);
     strayoutputpool.OutputEntity := @lnwallet.BaseOutput sdc;
     strayoutputpool.NewOutputEntity := fun o => o;
     strayoutputpool.Output := fun o => o;
     strayoutputpool.AddStrayOutput := fun o e => (None, e ++ [o]);
     strayoutputpool.FetchAllStrayOutputs := fun e => (Ok e, e);
     strayoutputpool.GenSweepScript := fun e => (Ok (p2wkh (length e)), e);
     strayoutputpool.EstimateFeePerKW := fun _ e => (Ok 2500, e);
     strayoutputpool.PublishTransaction := fun _ e => (None, e) |}.

(** Two stray outputs in the pool. *)
Definition strays : list (@lnwallet.BaseOutput sdc) :=
  [nursery.BaseOutput dustKid; nursery.BaseOutput oddKid].

(** A run of the nursery: the commitment output is incubated, its
    confirmation at height 100 moves it to kindergarten, indexed at 244;
    the class of height 244 is graduated; then the node restarts. *)
Definition worldIncubated : @nursery.World sdc (cfg 244 None 0) :=
  nursery.withStore
    (nursery.Incubate [commitKid] [] nursery.emptyStore) (world0 244 None 0).

Definition storeKinder : @nursery.NurseryStore sdc :=
  {| nursery.crib := []; nursery.pscl := [];
     nursery.kndr := [(244, commitKid)]; nursery.grad := [];
     nursery.finalized := ∅;
     nursery.lastFinalizedHeight := 0; nursery.lastGraduatedHeight := 0 |}.

Definition worldKinder : @nursery.World sdc (cfg 244 None 0) :=
  nursery.withStore storeKinder worldIncubated.

Definition worldFinalized : @nursery.World sdc (cfg 244 None 0) :=
  (@nursery.graduateClass sdc wm (cfg 244 None 0) 244 worldKinder).2.

Definition worldRestarted : @nursery.World sdc (cfg 244 None 0) :=
  {| nursery.ext := 7%nat : @nursery.Ext sdc (cfg 244 None 0);
     nursery.store := nursery.store worldFinalized;
     nursery.bestHeight := 0; nursery.trace := [] |}.

(** The sweep transaction finalized for height 244 in that run. *)
Definition finalTx244 : wire.MsgTx :=
  default (wire.NewMsgTx 0)
    (nursery.finalized (nursery.store worldFinalized) !! 244).

(** The nursery right after the first broadcast of [finalTx244]. *)
Definition worldPublished (publishErr : option error)
  : @nursery.World sdc (cfg 244 publishErr 0) :=
  {| nursery.ext := 0%nat : @nursery.Ext sdc (cfg 244 publishErr 0);
     nursery.store := nursery.emptyStore;
     nursery.bestHeight := 0;
     nursery.trace := [nursery.EvPublishTransaction finalTx244] |}.

End sim.

(** * Properties *)

(** ** Fixed-width integers and readers *)

Lemma byte_to_of_Z v : byte_to_Z (byte_of_Z v) = v mod 256.
Proof.
  unfold byte_to_Z, byte_of_Z.
  assert (Hr : 0 <= v mod 256 < 256) by (apply Z.mod_pos_bound; lia).
  destruct (Byte.of_N (Z.to_N (v mod 256))) as [b|] eqn:E; simpl.
  - apply Byte.to_of_N in E. rewrite E. lia.
  - apply Byte.of_N_None_iff in E. lia.
Qed.

Lemma lor_shiftl_add hi lo k :
  0 <= k -> 0 <= lo < 2 ^ k -> Z.lor lo (hi ≪ k) = lo + hi * 2 ^ k.
Proof.
  intros Hk Hlo. rewrite <- Z.shiftl_mul_pow2 by lia.
  symmetry. apply Z.add_nocarry_lor.
  apply Z.bits_inj'. intros n Hn. rewrite Z.land_spec, Z.bits_0.
  destruct (decide (n < k)).
  - rewrite Z.shiftl_spec_low by lia. apply andb_false_r.
  - destruct (decide (lo = 0)) as [->|].
    + by rewrite Z.bits_0.
    + rewrite (Z.bits_above_log2 lo n); [done|lia|].
      apply Z.log2_lt_pow2; [lia|].
      apply Z.lt_le_trans with (2 ^ k); [lia|].
      apply Z.pow_le_mono_r; lia.
Qed.

Ltac be_roundtrip :=
  rewrite !byte_to_of_Z;
  rewrite ?Z.shiftr_div_pow2 by lia;
  repeat (rewrite lor_shiftl_add;
          [ | lia | try (Z.div_mod_to_equations; lia) ]);
  Z.div_mod_to_equations; lia.

Lemma Uint16_PutUint16 v : is_u16 v -> binary.Uint16 (binary.PutUint16 v) = v.
Proof.
  unfold is_u16, binary.Uint16, binary.PutUint16, binary.at_. simpl. intros Hv.
  be_roundtrip.
Qed.

Lemma Uint32_PutUint32 v : is_u32 v -> binary.Uint32 (binary.PutUint32 v) = v.
Proof.
  unfold is_u32, binary.Uint32, binary.PutUint32, binary.at_. simpl. intros Hv.
  be_roundtrip.
Qed.

Lemma Uint64_PutUint64 v :
  0 <= v < 2 ^ 64 -> binary.Uint64 (binary.PutUint64 v) = v.
Proof.
  unfold binary.Uint64, binary.PutUint64, binary.at_. simpl. intros Hv.
  be_roundtrip.
Qed.

Lemma wrap_i64_u64 a : is_i64 a -> wrap_i64 (wrap_u64 a) = a.
Proof.
  unfold is_i64, wrap_i64, wrap_u64. intros. Z.div_mod_to_equations. lia.
Qed.

Lemma wrap_u64_range a : 0 <= wrap_u64 a < 2 ^ 64.
Proof. apply Z.mod_pos_bound. lia. Qed.

Lemma wrap_u16_id a : is_u16 a -> wrap_u16 a = a.
Proof. unfold is_u16, wrap_u16. intros. apply Z.mod_small. lia. Qed.

Lemma wrap_u32_small v : 0 <= v < 4294967296 -> wrap_u32 v = v.
Proof.
  intros. unfold wrap_u32. change (2 ^ 32) with 4294967296.
  by apply Z.mod_small.
Qed.

Lemma wrap_i64_add_l a b : wrap_i64 (wrap_i64 a + b) = wrap_i64 (a + b).
Proof.
  unfold wrap_i64. f_equal.
  replace ((a + 2 ^ 63) mod 2 ^ 64 - 2 ^ 63 + b + 2 ^ 63)
    with ((a + 2 ^ 63) mod 2 ^ 64 + b) by ring.
  rewrite Zplus_mod_idemp_l. f_equal. ring.
Qed.

Lemma bind_Err {A B} (r : Result A) (k : A -> Result B) :
  is_Err r -> is_Err (r ≫= k).
Proof. by destruct r. Qed.

Lemma prefix_app_cases {A} (p f g : list A) :
  p `prefix_of` f ++ g ->
  (exists g', p = f ++ g' ∧ g' `prefix_of` g) ∨ (p `prefix_of` f ∧ p ≠ f).
Proof.
  revert p. induction f as [|x f IH]; intros p Hp.
  - left. by exists p.
  - destruct p as [|y p].
    + right. split; [apply prefix_nil|done].
    + destruct Hp as [k Hk]. simplify_eq/=.
      destruct (IH p) as [(g' & -> & Hg)|[Hpf Hne]].
      * by exists k.
      * left. by exists g'.
      * right. split; [by apply prefix_cons|congruence].
Qed.

Lemma app_ne_inv {A} (f q g : list A) : f ++ q ≠ f ++ g -> q ≠ g.
Proof. congruence. Qed.

Lemma ReadFull_app n w tl :
  length w = n -> io.ReadFull n (w ++ tl) = Ok (w, tl).
Proof.
  intros <-. unfold io.ReadFull.
  destruct (decide (length w = 0%nat)) as [E|E].
  - by destruct w.
  - rewrite decide_True by (rewrite length_app; lia).
    by rewrite take_app_length, drop_app_length.
Qed.

Lemma Read_app n buf w tl :
  length w = n -> n ≠ 0%nat ->
  io.Read n buf (w ++ tl) = Ok (w ++ drop n buf, tl).
Proof.
  intros <- Hn. unfold io.Read.
  destruct w as [|x w]; [done|].
  change ((x :: w) ++ tl) with (x :: (w ++ tl)).
  cbv match. rewrite !app_comm_cons.
  by rewrite take_app_length, drop_app_length.
Qed.

Lemma Read_short n buf f q :
  q `prefix_of` f -> q ≠ f -> length f = n -> short_or_drained (io.Read n buf q).
Proof.
  intros Hq Hne Hf. destruct q as [|x q]; [by left|right].
  unfold io.Read. eexists. f_equal. f_equal.
  apply drop_ge. apply prefix_length in Hq. lia.
Qed.

Lemma ReadFull_short n f q :
  q `prefix_of` f -> q ≠ f -> length f = n -> is_Err (io.ReadFull n q).
Proof.
  intros Hq Hne Hf. unfold io.ReadFull.
  assert (length q < n)%nat.
  { destruct (decide (length q < n)%nat); [done|].
    exfalso. apply Hne, prefix_length_eq; [done|lia]. }
  rewrite decide_False by lia. rewrite decide_False by lia. by destruct q.
Qed.

Lemma LimitReader_ok {A} (rd : Reader A) n w a rest :
  (forall tl, rd (w ++ tl) = Ok (a, tl)) -> (length w <= n)%nat ->
  io.LimitReader n rd (w ++ rest) = Ok (a, rest).
Proof.
  intros Hrd Hn. unfold io.LimitReader.
  rewrite take_app_ge by done. rewrite Hrd.
  f_equal. f_equal. rewrite length_app.
  replace (length w + length (take (n - length w) rest)
           - length (take (n - length w) rest))%nat
    with (length w) by lia.
  by rewrite drop_app_length.
Qed.

Lemma LimitReader_small {A} (rd : Reader A) n q :
  (length q <= n)%nat -> short_or_drained (rd q) ->
  short_or_drained (io.LimitReader n rd q).
Proof.
  intros Hn Hs. unfold io.LimitReader. rewrite take_ge by done.
  destruct Hs as [He|[a ->]].
  - left. by destruct (rd q).
  - right. exists a. f_equal. f_equal. simpl. apply drop_ge. lia.
Qed.

Lemma Read_bool_Write_bool b tl :
  io.Read_bool (binary.Write_bool b ++ tl) = Ok (b, tl).
Proof. by destruct b. Qed.

(** ** The encoding of kid and baby outputs *)

Section CodecProperties.
Context `{SDC : lnwallet.SignDescCodec} `{TXC : !nursery.TxCodec}.
Import nursery.

(** The layout of an outpoint: the length byte 32, the hash, the index. *)
Lemma writeOutpoint_eq o :
  wf_OutPoint o ->
  writeOutpoint o
  = ["032"%byte] ++ wire.Hash o ++ binary.PutUint32 (wire.Index o).
Proof.
  intros [Hlen _]. unfold writeOutpoint, wire.WriteVarBytes, wire.WriteVarInt.
  rewrite Hlen. by rewrite <- app_assoc.
Qed.

Lemma writeOutpoint_length o :
  wf_OutPoint o -> length (writeOutpoint o) = 37%nat.
Proof.
  intros Hwf. rewrite writeOutpoint_eq by done. destruct Hwf as [Hlen _].
  rewrite !length_app, Hlen. done.
Qed.

Lemma readOutpoint_writeOutpoint o o0 tl :
  wf_OutPoint o -> length (wire.Hash o0) = 32%nat ->
  readOutpoint o0 (writeOutpoint o ++ tl) = Ok (o, tl).
Proof.
  intros Hwf H0. rewrite writeOutpoint_eq by done. destruct Hwf as [Hlen Hidx].
  unfold readOutpoint, wire.ReadVarBytes, wire.ReadVarInt.
  rewrite <- !app_assoc.
  rewrite ReadFull_app by done. simpl.
  rewrite ReadFull_app by done. simpl.
  change [byte_of_Z (wire.Index o ≫ 24); byte_of_Z (wire.Index o ≫ 16);
          byte_of_Z (wire.Index o ≫ 8); byte_of_Z (wire.Index o)]
    with (binary.PutUint32 (wire.Index o)).
  rewrite Uint32_PutUint32 by done.
  unfold copy. rewrite H0, Hlen.
  rewrite <- Hlen at 1. rewrite firstn_all.
  rewrite drop_ge by lia. rewrite app_nil_r. by destruct o.
Qed.

Lemma readOutpoint_short o o0 q :
  wf_OutPoint o -> q `prefix_of` writeOutpoint o -> q ≠ writeOutpoint o ->
  short_or_drained (io.LimitReader 40 (readOutpoint o0) q).
Proof.
  intros Hwf Hq Hne. apply LimitReader_small.
  { apply prefix_length in Hq. rewrite writeOutpoint_length in Hq by done. lia. }
  rewrite writeOutpoint_eq in Hq, Hne by done.
  destruct Hwf as [Hlen Hidx].
  unfold readOutpoint, wire.ReadVarBytes, wire.ReadVarInt.
  apply prefix_app_cases in Hq as [(q1 & -> & Hq1)|[Hq Hq']].
  2:{ left. pose proof (ReadFull_short 1 _ _ Hq Hq' eq_refl) as He.
      by destruct (io.ReadFull 1 q). }
  rewrite ReadFull_app by done. simpl.
  apply prefix_app_cases in Hq1 as [(q2 & -> & Hq2)|[Hq1 Hq1']].
  2:{ left. apply bind_Err. exact (ReadFull_short 32 _ _ Hq1 Hq1' Hlen). }
  change (Z.to_nat _) with 32%nat.
  rewrite ReadFull_app by done. cbn [mbind res_bind].
  do 2 apply app_ne_inv in Hne.
  destruct (Read_short 4 (zeros 4) _ _ Hq2 Hne eq_refl) as [He|[a ->]].
  - left. by destruct (io.Read 4 (zeros 4) q2).
  - right. by eexists.
Qed.

(** Decoding what was encoded, whatever follows in the stream. *)
Lemma KidOutput_roundtrip k k0 tl :
  wf_KidOutput k -> wf_receiver k0 -> sign_desc_roundtrips (SignDesc k) ->
  KidOutput_Decode k0 (KidOutput_Encode k ++ tl) = Ok (k, tl).
Proof.
  intros (Hamt & Hop & Hcp & Hb & Ha & Hc & Hw) Hk0 Hsd.
  unfold KidOutput_Decode, KidOutput_Encode.
  rewrite <- !app_assoc.
  rewrite Read_app by done. cbn [mbind res_bind].
  rewrite (LimitReader_ok _ 40 (writeOutpoint _) (OutPoint k)).
  2:{ intros. by apply readOutpoint_writeOutpoint. }
  2:{ rewrite writeOutpoint_length by done. lia. }
  cbn [mbind res_bind].
  rewrite (LimitReader_ok _ 40 (writeOutpoint _) (OriginChanPoint k)).
  2:{ intros. by apply readOutpoint_writeOutpoint. }
  2:{ rewrite writeOutpoint_length by done. lia. }
  cbn [mbind res_bind].
  rewrite Read_bool_Write_bool. cbn [mbind res_bind].
  do 4 (rewrite Read_app by done; cbn [mbind res_bind]).
  rewrite Hsd. cbn [mbind res_bind].
  rewrite !take_app_length' by done.
  rewrite !Uint32_PutUint32, Uint16_PutUint16
    by (try done; rewrite wrap_u16_id; done).
  rewrite wrap_u16_id by done.
  rewrite drop_ge, app_nil_r by done.
  rewrite Uint64_PutUint64 by apply wrap_u64_range.
  rewrite wrap_i64_u64 by done.
  by destruct k as [[] ? ? ? ? ?].
Qed.

Lemma BabyOutput_roundtrip bo bo0 tx :
  wf_BabyOutput bo -> wf_receiver (baby_KidOutput bo0) ->
  sign_desc_roundtrips (SignDesc (baby_KidOutput bo)) ->
  timeoutTx bo = Some tx -> tx_roundtrips tx ->
  exists enc, BabyOutput_Encode bo = Ok enc
              ∧ BabyOutput_Decode bo0 enc = Ok (bo, []).
Proof.
  intros [Hexp Hkid] Hrecv Hsd Htx Hrt.
  unfold BabyOutput_Encode. rewrite Htx. eexists. split; [done|].
  unfold BabyOutput_Decode.
  rewrite Read_app by done. cbn [mbind res_bind].
  rewrite Hrt. cbn [mbind res_bind].
  rewrite <- (app_nil_r (KidOutput_Encode _)).
  rewrite KidOutput_roundtrip by done. cbn [mbind res_bind].
  rewrite drop_ge, app_nil_r by done.
  rewrite Uint32_PutUint32 by done.
  destruct bo. simpl in *. by subst.
Qed.

Ltac drained H :=
  destruct H as [H|[? ->]]; [by apply bind_Err|cbn [mbind res_bind]].

Ltac short_read n :=
  match goal with
  | Hq : _ `prefix_of` _, Hq' : _ ≠ _ |- is_Err (io.Read n ?b _ ≫= _) =>
      let H := fresh "H" in
      pose proof (Read_short n b _ _ Hq Hq' eq_refl) as H; drained H
  end.

(** A truncated encoding does not decode. *)
Lemma KidOutput_Decode_truncated k k0 q :
  wf_KidOutput k -> wf_receiver k0 ->
  sign_desc_roundtrips (SignDesc k) -> sign_desc_strict (SignDesc k) ->
  q `prefix_of` KidOutput_Encode k -> q ≠ KidOutput_Encode k ->
  is_Err (KidOutput_Decode k0 q).
Proof.
  intros (Hamt & Hop & Hcp & Hb & Ha & Hc & Hw) Hk0 Hsd [Hnil Hstrict] Hq Hne.
  unfold KidOutput_Decode. unfold KidOutput_Encode in Hq, Hne.
  (* amount *)
  apply prefix_app_cases in Hq as [(q1 & -> & Hq)|[Hq Hq']].
  2:{ short_read 8%nat. done. }
  rewrite Read_app by done. cbn [mbind res_bind].
  apply app_ne_inv in Hne.
  (* outpoint *)
  apply prefix_app_cases in Hq as [(q2 & -> & Hq)|[Hq Hq']].
  2:{ pose proof (readOutpoint_short _ wire.zeroOutPoint _ Hop Hq Hq') as H.
      drained H. done. }
  rewrite (LimitReader_ok _ 40 (writeOutpoint _) (OutPoint k)).
  2:{ intros. by apply readOutpoint_writeOutpoint. }
  2:{ rewrite writeOutpoint_length by done. lia. }
  cbn [mbind res_bind].
  apply app_ne_inv in Hne.
  (* origin channel point *)
  apply prefix_app_cases in Hq as [(q3 & -> & Hq)|[Hq Hq']].
  2:{ pose proof (readOutpoint_short _ (originChanPoint k0) _ Hcp Hq Hq') as H.
      drained H. done. }
  rewrite (LimitReader_ok _ 40 (writeOutpoint _) (OriginChanPoint k)).
  2:{ intros. by apply readOutpoint_writeOutpoint. }
  2:{ rewrite writeOutpoint_length by done. lia. }
  cbn [mbind res_bind].
  apply app_ne_inv in Hne.
  (* isHtlc *)
  apply prefix_app_cases in Hq as [(q4 & -> & Hq)|[Hq Hq']].
  2:{ apply bind_Err. unfold io.Read_bool.
      pose proof (ReadFull_short 1 _ _ Hq Hq' eq_refl) as H.
      by destruct (io.ReadFull 1 q3). }
  rewrite Read_bool_Write_bool. cbn [mbind res_bind].
  apply app_ne_inv in Hne.
  (* blocksToMaturity *)
  apply prefix_app_cases in Hq as [(q5 & -> & Hq)|[Hq Hq']].
  2:{ short_read 4%nat. done. }
  rewrite Read_app by done. cbn [mbind res_bind].
  apply app_ne_inv in Hne.
  (* absoluteMaturity *)
  apply prefix_app_cases in Hq as [(q6 & -> & Hq)|[Hq Hq']].
  2:{ short_read 4%nat. done. }
  rewrite Read_app by done. cbn [mbind res_bind].
  apply app_ne_inv in Hne.
  (* confHeight *)
  apply prefix_app_cases in Hq as [(q7 & -> & Hq)|[Hq Hq']].
  2:{ short_read 4%nat. done. }
  rewrite Read_app by done. cbn [mbind res_bind].
  apply app_ne_inv in Hne.
  (* witness type *)
  apply prefix_app_cases in Hq as [(q8 & -> & Hq)|[Hq Hq']].
  2:{ short_read 2%nat. by apply bind_Err. }
  rewrite Read_app by done. cbn [mbind res_bind].
  apply app_ne_inv in Hne.
  (* sign descriptor *)
  apply bind_Err. by apply Hstrict.
Qed.

(** C6.  Encode followed by decode is the identity on kid and baby
    outputs: for every well-formed [KidOutput] and every well-formed
    [BabyOutput] (whose timeout transaction is not nil), decoding the bytes
    produced by [Encode] yields the original value and consumes all of
    them, provided the external codecs of the sign descriptor and of the
    timeout transaction read back what they wrote. *)
Theorem encode_decode_identity
  (k k0 : KidOutput) (bo bo0 : BabyOutput) (tx : wire.MsgTx) :
  wf_KidOutput k -> wf_receiver k0 -> sign_desc_roundtrips (SignDesc k) ->
  wf_BabyOutput bo -> wf_receiver (baby_KidOutput bo0) ->
  sign_desc_roundtrips (SignDesc (baby_KidOutput bo)) ->
  timeoutTx bo = Some tx -> tx_roundtrips tx ->
  KidOutput_Decode k0 (KidOutput_Encode k) = Ok (k, [])
  ∧ exists enc, BabyOutput_Encode bo = Ok enc
                ∧ BabyOutput_Decode bo0 enc = Ok (bo, []).
Proof.
  intros Hk Hk0 Hsd Hbo Hbo0 Hsdb Htx Hrt. split.
  - rewrite <- (app_nil_r (KidOutput_Encode k)). by apply KidOutput_roundtrip.
  - by eapply BabyOutput_roundtrip.
Qed.

(** C7 (as amended).  [KidOutput.Decode] rejects every truncated stream:
    a strict prefix of an encoding makes it return an error, provided the
    external sign-descriptor decoder rejects truncated descriptors.  It
    does not validate the witness type: the encoding of an output with any
    [uint16] witness type decodes to that output.  An outpoint is written
    as one length byte (32), the 32 hash bytes and the big-endian [uint32]
    index, 37 bytes in all. *)
Theorem KidOutput_Decode_strictness (k k0 : KidOutput) (q : list byte) :
  wf_KidOutput k -> wf_receiver k0 ->
  sign_desc_roundtrips (SignDesc k) -> sign_desc_strict (SignDesc k) ->
  q `prefix_of` KidOutput_Encode k -> q ≠ KidOutput_Encode k ->
  is_Err (KidOutput_Decode k0 q)
  ∧ KidOutput_Decode k0 (KidOutput_Encode k) = Ok (k, [])
  ∧ writeOutpoint (OutPoint k)
    = ["032"%byte] ++ wire.Hash (OutPoint k)
      ++ binary.PutUint32 (wire.Index (OutPoint k))
  ∧ length (writeOutpoint (OutPoint k)) = 37%nat.
Proof.
  intros Hk Hk0 Hsd Hstrict Hq Hne. split; [|split; [|split]].
  - by apply KidOutput_Decode_truncated with k.
  - rewrite <- (app_nil_r (KidOutput_Encode k)). by apply KidOutput_roundtrip.
  - apply writeOutpoint_eq. by destruct Hk as (_ & ? & _).
  - apply writeOutpoint_length. by destruct Hk as (_ & ? & _).
Qed.

End CodecProperties.

(** The simulated sign-descriptor codec is strict. *)
Lemma sim_sign_desc_strict sd : @nursery.sign_desc_strict sim.sdc sd.
Proof.
  split; [exact I|]. intros q [t Ht] Hne.
  destruct q as [|b q]; [exact I|].
  exfalso. apply Hne. simpl in Ht. injection Ht as -> Ht.
  by destruct q.
Qed.

Ltac in_range := repeat split; try reflexivity; try (vm_compute; congruence).

Lemma encode_decode_identity_witness :
  (@nursery.wf_KidOutput sim.sdc sim.commitKid
   ∧ @nursery.wf_BabyOutput sim.sdc sim.baby0
   ∧ @nursery.tx_roundtrips sim.txc sim.timeoutTx0)
  ∧ (@nursery.KidOutput_Decode sim.sdc sim.zeroKid
       (@nursery.KidOutput_Encode sim.sdc sim.commitKid)
     = Ok (sim.commitKid, [])
     ∧ exists enc,
         @nursery.BabyOutput_Encode sim.sdc sim.txc sim.baby0 = Ok enc
         ∧ @nursery.BabyOutput_Decode sim.sdc sim.txc
             sim.zeroBaby enc
           = Ok (sim.baby0, [])).
Proof.
  assert (Hk : @nursery.wf_KidOutput sim.sdc sim.commitKid) by in_range.
  assert (Hb : @nursery.wf_BabyOutput sim.sdc sim.baby0) by in_range.
  assert (Ht : @nursery.tx_roundtrips sim.txc sim.timeoutTx0)
    by (intros tl; reflexivity).
  assert (Hr : @nursery.wf_receiver sim.sdc sim.zeroKid) by reflexivity.
  assert (Hs : forall sd, @nursery.sign_desc_roundtrips sim.sdc sd)
    by (intros sd tl; reflexivity).
  split; [done|].
  exact (@encode_decode_identity sim.sdc sim.txc sim.commitKid sim.zeroKid
           sim.baby0 sim.zeroBaby sim.timeoutTx0
           Hk Hr (Hs _) Hb Hr (Hs _) eq_refl Ht).
Defined.

Lemma KidOutput_Decode_strictness_witness :
  (@nursery.wf_KidOutput sim.sdc sim.unknownKid
   ∧ take 50 (@nursery.KidOutput_Encode sim.sdc sim.unknownKid)
       `prefix_of` @nursery.KidOutput_Encode sim.sdc sim.unknownKid)
  ∧ is_Err (@nursery.KidOutput_Decode sim.sdc sim.zeroKid
              (take 50 (@nursery.KidOutput_Encode sim.sdc sim.unknownKid)))
  ∧ @nursery.KidOutput_Decode sim.sdc sim.zeroKid
      (@nursery.KidOutput_Encode sim.sdc sim.unknownKid)
    = Ok (sim.unknownKid, [])
  ∧ nursery.writeOutpoint (@nursery.OutPoint sim.sdc sim.unknownKid)
    = ["032"%byte] ++ wire.Hash (@nursery.OutPoint sim.sdc sim.unknownKid)
      ++ binary.PutUint32 (wire.Index (@nursery.OutPoint sim.sdc sim.unknownKid))
  ∧ length (nursery.writeOutpoint (@nursery.OutPoint sim.sdc sim.unknownKid))
    = 37%nat.
Proof.
  assert (Hk : @nursery.wf_KidOutput sim.sdc sim.unknownKid) by in_range.
  assert (Hp : take 50 (@nursery.KidOutput_Encode sim.sdc sim.unknownKid)
                 `prefix_of` @nursery.KidOutput_Encode sim.sdc sim.unknownKid)
    by apply prefix_take.
  assert (Hr : @nursery.wf_receiver sim.sdc sim.zeroKid) by reflexivity.
  assert (Hs : @nursery.sign_desc_roundtrips sim.sdc
                 (@nursery.SignDesc sim.sdc sim.unknownKid))
    by (intros tl; reflexivity).
  assert (Hne : take 50 (@nursery.KidOutput_Encode sim.sdc sim.unknownKid)
                ≠ @nursery.KidOutput_Encode sim.sdc sim.unknownKid).
  { intros H. apply (f_equal length) in H. vm_compute in H. congruence. }
  split; [done|].
  exact (@KidOutput_Decode_strictness sim.sdc sim.unknownKid sim.zeroKid _
           Hk Hr Hs (sim_sign_desc_strict _) Hp Hne).
Defined.

(** An output whose witness type (65535) is none of the constants of
    [lnwallet] is decoded without an error, and the serialized outpoint is
    not the 32 hash bytes followed by the index: it has one more byte. *)
Lemma KidOutput_Decode_counterexample :
  (@nursery.KidOutput_Decode sim.sdc sim.zeroKid
     (@nursery.KidOutput_Encode sim.sdc sim.unknownKid)
   = Ok (sim.unknownKid, [])
   ∧ @nursery.WitnessType sim.sdc sim.unknownKid ∉ lnwallet.knownWitnessTypes)
  ∧ nursery.writeOutpoint (sim.outpoint 1 0)
    ≠ wire.Hash (sim.outpoint 1 0)
      ++ binary.PutUint32 (wire.Index (sim.outpoint 1 0)).
Proof.
  split; [split|].
  - vm_compute. reflexivity.
  - intros H. unfold lnwallet.knownWitnessTypes in H.
    repeat (apply elem_of_cons in H as [H|H]; [vm_compute in H; congruence|]).
    by apply elem_of_nil in H.
  - intros H. apply (f_equal length) in H. vm_compute in H. congruence.
Qed.

(** ** Contract outputs *)

Section ContractOutputProperties.
Context `{SDC : lnwallet.SignDescCodec} `{BOC : !lnwallet.BaseOutputCodec}.
Import contractcourt.

(** On a stream that ends right after the base output, [Decode] keeps
    the preimage of its receiver. *)
Lemma Decode_without_preimage s bs b :
  lnwallet.BaseOutput_Decode (BaseOutput s) bs = Ok (b, []) ->
  Decode s bs = Ok ({| preimage := preimage s; BaseOutput := b |}, []).
Proof. intros Hb. unfold Decode. by rewrite Hb. Qed.

Lemma Decode_with_preimage s bs b p :
  length p = 32%nat ->
  lnwallet.BaseOutput_Decode (BaseOutput s) (bs ++ p) = Ok (b, p) ->
  Decode s (bs ++ p) = Ok ({| preimage := p; BaseOutput := b |}, []).
Proof.
  intros Hp Hb. unfold Decode. rewrite Hb. cbn [mbind res_bind].
  rewrite <- (app_nil_r p) at 1. by rewrite ReadFull_app.
Qed.

(** C10.  [ContractOutput.Decode] tolerates a missing preimage: on a
    stream that ends immediately after a well-formed [BaseOutput],
    decoding into a fresh output succeeds and leaves the preimage all
    zero, so the truncated record and the record that carries 32 zero
    bytes decode to the same value; [Encode], when it succeeds, always
    appends the preimage to the encoding of the base output. *)
Theorem ContractOutput_Decode_missing_preimage
  (b0 b : lnwallet.BaseOutput) (bs enc : list byte) (s : ContractOutput) :
  lnwallet.BaseOutput_Decode b0 bs = Ok (b, []) ->
  lnwallet.BaseOutput_Decode b0 (bs ++ zeros 32) = Ok (b, zeros 32) ->
  Encode s = Ok enc ->
  NewDecodedContractOutput b0 bs
  = Ok ({| preimage := zeros 32; BaseOutput := b |}, [])
  ∧ NewDecodedContractOutput b0 (bs ++ zeros 32)
    = NewDecodedContractOutput b0 bs
  ∧ exists be, lnwallet.BaseOutput_Encode (BaseOutput s) = Ok be
               ∧ enc = be ++ preimage s.
Proof.
  intros Hshort Hfull Henc. unfold NewDecodedContractOutput.
  rewrite (Decode_without_preimage _ bs b) by done.
  rewrite (Decode_with_preimage _ bs b) by done.
  split; [done|]. split; [done|].
  unfold Encode in Henc.
  destruct (lnwallet.BaseOutput_Encode (BaseOutput s)) as [be|e]; [|done].
  exists be. split; [done|]. simpl in Henc. congruence.
Qed.

End ContractOutputProperties.

Lemma ContractOutput_Decode_missing_preimage_witness :
  (@lnwallet.BaseOutput_Decode sim.sdc sim.boc sim.base0 ["008"%byte]
   = Ok (sim.base8, []))
  ∧ @contractcourt.NewDecodedContractOutput sim.sdc sim.boc sim.base0 ["008"%byte]
    = Ok ({| contractcourt.preimage := zeros 32;
             contractcourt.BaseOutput := sim.base8 |}, [])
  ∧ @contractcourt.NewDecodedContractOutput sim.sdc sim.boc sim.base0
      (["008"%byte] ++ zeros 32)
    = @contractcourt.NewDecodedContractOutput sim.sdc sim.boc sim.base0
        ["008"%byte]
  ∧ exists be,
      @lnwallet.BaseOutput_Encode sim.sdc sim.boc sim.base8 = Ok be
      ∧ "008"%byte :: zeros 32 = be ++ zeros 32.
Proof.
  split; [reflexivity|].
  exact (@ContractOutput_Decode_missing_preimage sim.sdc sim.boc
           sim.base0 sim.base8 ["008"%byte] ("008"%byte :: zeros 32)
           {| contractcourt.preimage := zeros 32;
              contractcourt.BaseOutput := sim.base8 |}
           eq_refl eq_refl eq_refl).
Defined.

(** ** Running nursery methods *)

Section RunLemmas.
Context `{SDC : lnwallet.SignDescCodec} `{WM : lnwallet.WeightModel}
        `{CFG : !nursery.Config}.
Import nursery.

Lemma run_bind {A B} (m : M A) (k : A -> M B) w :
  (m ≫= k) w = match m w with
                | (Ok a, w') => k a w'
                | (Err e, w') => (Err e, w')
                end.
Proof. done. Qed.

Lemma run_tryExt {A} ev (f : Ext -> Result A * Ext) w :
  tryExt ev f w =
    ((f (ext w)).1, {| ext := (f (ext w)).2; store := store w;
                       bestHeight := bestHeight w; trace := trace w ++ [ev] |}).
Proof.
  unfold tryExt, callExt, liftResult, mbind, M_bind.
  by destruct (f (ext w)) as [[a|e] e'].
Qed.

Lemma run_liftResult {A} (r : Result A) w : liftResult r w = (r, w).
Proof. done. Qed.

Lemma M_bind_assoc {A B C} (m : M A) (f : A -> M B) (g : B -> M C) w :
  ((m ≫= f) ≫= g) w = (m ≫= λ a, f a ≫= g) w.
Proof. unfold mbind, M_bind. by destruct (m w) as [[a|e] w']. Qed.

Lemma M_ret_bind {A B} (a : A) (f : A -> M B) w : (mret a ≫= f) w = f a w.
Proof. done. Qed.

End RunLemmas.

(** ** The sweep transaction *)

Section SweepProperties.
Context `{SDC : lnwallet.SignDescCodec} `{WM : lnwallet.WeightModel}
        `{CFG : !nursery.Config}.
Import nursery.

Lemma isCsv_not_isCltv k : isCsv k -> ¬ isCltv k.
Proof.
  unfold isCsv, isCltv. intros [H|[H|H]] H'; rewrite H in H'; discriminate.
Qed.

Lemma sweepable_count (l : list KidOutput) :
  length (filter sweepable l)
  = (length (filter isCsv l) + length (filter isCltv l))%nat.
Proof.
  induction l as [|k l IH]; [done|].
  rewrite !filter_cons. unfold sweepable at 1.
  destruct (decide (isCsv k)) as [Hc|Hc].
  - rewrite decide_True by by left.
    rewrite (decide_False (P:=isCltv k)) by by apply isCsv_not_isCltv.
    simpl. lia.
  - destruct (decide (isCltv k)) as [Hl|Hl].
    + rewrite decide_True by by right. simpl. lia.
    + by rewrite decide_False by (by intros [|]).
Qed.

(** The loop only ever appends the address of its iteration variable,
    once per output that passes the stray filter and has a witness type of
    the switch; the variable ends up holding the last element. *)
Lemma rangeKgtnOutputs_aliasing f input kids acc w :
  exists acc' w',
    rangeKgtnOutputs f input kids acc w = (Ok acc', w')
    ∧ csvOutputs acc' =
        csvOutputs acc
        ++ replicate (length (filter isCsv (strayFilter f kids (ext w)))) input
    ∧ cltvOutputs acc' =
        cltvOutputs acc
        ++ replicate (length (filter isCltv (strayFilter f kids (ext w)))) input
    ∧ heap acc' = match last kids with
                  | Some k => <[input := k]> (heap acc)
                  | None => heap acc
                  end.
Proof.
  revert acc w. induction kids as [|k kids IH]; intros acc w.
  - exists acc, w. simpl. by rewrite !app_nil_r.
  - simpl. unfold mbind at 1, M_bind at 1, callExt.
    destruct (CutStrayInput f k (ext w)) as [cut e'] eqn:Ecut. simpl.
    assert (Hheap : forall h0 : gmap nat KidOutput,
      match last kids with
      | Some k0 => <[input:=k0]> (<[input:=k]> h0)
      | None => <[input:=k]> h0
      end
      = match last (k :: kids) with
        | Some k0 => <[input:=k0]> h0
        | None => h0
        end).
    { intros h0. destruct kids as [|k1 kids]; [done|].
      change (last (k :: k1 :: kids)) with (last (k1 :: kids)).
      destruct (last (k1 :: kids)) eqn:El; [by rewrite insert_insert_eq|].
      by apply last_None in El. }
    destruct cut.
    + edestruct IH as (acc' & w' & -> & Hcsv & Hcltv & Hh).
      exists acc', w'. simpl in *. by rewrite Hcsv, Hcltv, Hh, Hheap.
    + rewrite !filter_cons. case_decide as Hc.
      * rewrite (decide_True (P:=isCsv k)) by done.
        rewrite (decide_False (P:=isCltv k)) by by apply isCsv_not_isCltv.
        edestruct IH as (acc' & w' & -> & Hcsv & Hcltv & Hh).
        exists acc', w'. simpl in *.
        by rewrite Hcsv, Hcltv, Hh, Hheap, <- app_assoc.
      * rewrite (decide_False (P:=isCsv k)) by done.
        case_decide as Hl.
        -- rewrite (decide_True (P:=isCltv k)) by done.
           edestruct IH as (acc' & w' & -> & Hcsv & Hcltv & Hh).
           exists acc', w'. simpl in *.
           by rewrite Hcsv, Hcltv, Hh, Hheap, <- app_assoc.
        -- rewrite (decide_False (P:=isCltv k)) by done.
           edestruct IH as (acc' & w' & -> & Hcsv & Hcltv & Hh).
           exists acc', w'. simpl in *. by rewrite Hcsv, Hcltv, Hh, Hheap.
Qed.

Lemma mapM_load_replicate (hp : gmap nat KidOutput) (p : nat) k n :
  hp !! p = Some k -> mapM (load hp) (replicate n p) = Ok (replicate n k).
Proof.
  intros Hp. induction n as [|n IH]; [done|].
  simpl. rewrite IH. unfold load. by rewrite Hp.
Qed.

Lemma foldl_AddTxIn_inputs (g : KidOutput -> wire.TxIn) tx ks :
  wire.tx_TxIn (foldl (fun tx i => wire.AddTxIn (g i) tx) tx ks)
  = wire.tx_TxIn tx ++ (g <$> ks).
Proof.
  revert tx. induction ks as [|k ks IH]; intros tx; simpl.
  - by rewrite app_nil_r.
  - rewrite IH. simpl. by rewrite <- app_assoc.
Qed.

Lemma foldl_AddTxIn_rest (g : KidOutput -> wire.TxIn) tx ks :
  let tx' := foldl (fun tx i => wire.AddTxIn (g i) tx) tx ks in
  wire.Version tx' = wire.Version tx
  ∧ wire.tx_TxOut tx' = wire.tx_TxOut tx
  ∧ wire.LockTime tx' = wire.LockTime tx.
Proof.
  revert tx. induction ks as [|k ks IH]; intros tx; simpl; [done|].
  apply (IH (wire.AddTxIn (g k) tx)).
Qed.

(** What [populateSweepTx] builds from the outputs its pointers denote:
    a version-2 transaction with a single output worth the sum of the
    inputs minus the fee (as an [int64]), the class height as lock time
    exactly when there is a cltv input, and the csv inputs first, each
    with its blocks-to-maturity as sequence, then the cltv inputs with
    the zero sequence. *)
Lemma unsignedSweepTx_shape pk fee h csv cltv :
  let tx := unsignedSweepTx pk fee h csv cltv in
  wire.Version tx = 2
  ∧ wire.tx_TxOut tx =
      [ {| wire.Value := wrap_i64 (sumAmounts (sumAmounts 0 csv) cltv - fee);
           wire.PkScript := pk |} ]
  ∧ wire.LockTime tx = (if decide (cltv = []) then 0 else h)
  ∧ wire.tx_TxIn tx = (csvTxIn <$> csv) ++ (cltvTxIn <$> cltv).
Proof.
  unfold unsignedSweepTx.
  set (tx0 := if decide (0 < length cltv)%nat then _ else _).
  destruct (foldl_AddTxIn_rest csvTxIn tx0 csv) as (Hv1 & Ho1 & Hl1).
  destruct (foldl_AddTxIn_rest cltvTxIn
              (foldl (fun tx i => wire.AddTxIn (csvTxIn i) tx) tx0 csv) cltv)
    as (Hv2 & Ho2 & Hl2).
  simpl in *. rewrite Hv2, Hv1, Ho2, Ho1, Hl2, Hl1, !foldl_AddTxIn_inputs.
  subst tx0. destruct cltv; simpl; done.
Qed.

Lemma unsignedSweepTx_inputs pk fee h csv cltv :
  wire.tx_TxIn (unsignedSweepTx pk fee h csv cltv)
  = (csvTxIn <$> csv) ++ (cltvTxIn <$> cltv).
Proof. apply unsignedSweepTx_shape. Qed.

Lemma checkDuplicateInputs_dup seen ti1 ti2 ins :
  wire.PreviousOutPoint ti1 = wire.PreviousOutPoint ti2 ->
  blockchain.checkDuplicateInputs seen (ti1 :: ti2 :: ins)
  = Some ErrDuplicateTxInputs.
Proof.
  intros Heq. simpl. case_decide; [done|].
  rewrite decide_True; [done|]. rewrite Heq. apply elem_of_cons. by left.
Qed.

Lemma CheckTransactionSanity_dup tx ti1 ti2 ins :
  wire.tx_TxIn tx = ti1 :: ti2 :: ins ->
  wire.PreviousOutPoint ti1 = wire.PreviousOutPoint ti2 ->
  is_Some (blockchain.CheckTransactionSanity tx).
Proof.
  intros Hin Heq. unfold blockchain.CheckTransactionSanity.
  repeat (case_decide; [by eexists|]).
  destruct (blockchain.checkOutputValues _ _); [by eexists|].
  rewrite Hin, checkDuplicateInputs_dup by done. by eexists.
Qed.

Lemma unsignedSweepTx_aliased pk fee h k n m :
  (2 <= n + m)%nat ->
  let tx := unsignedSweepTx pk fee h (replicate n k) (replicate m k) in
  Forall (fun ti => wire.PreviousOutPoint ti = OutPoint k) (wire.tx_TxIn tx)
  ∧ is_Some (blockchain.CheckTransactionSanity tx).
Proof.
  intros Hnm tx. subst tx. split.
  - rewrite unsignedSweepTx_inputs. apply Forall_app.
    split; by apply Forall_fmap, Forall_replicate.
  - pose proof (unsignedSweepTx_inputs pk fee h (replicate n k) (replicate m k))
      as Hin.
    destruct n as [|[|n]];
      [destruct m as [|[|m]]; [lia|lia|]|destruct m as [|m]; [lia|]|];
      simpl in Hin; by eapply CheckTransactionSanity_dup.
Qed.

Lemma createSweepTx_aliased_error kids h w :
  (forall f e1, EstimateFeePerKW 6 (ext w) = (Ok f, e1) ->
     (2 <= length (filter sweepable (strayFilter f kids e1)))%nat) ->
  is_Err (createSweepTx kids h w).1.
Proof.
  intros Htwo. unfold createSweepTx.
  rewrite run_bind, run_tryExt.
  destruct (EstimateFeePerKW 6 (ext w)) as [[f|e] e1] eqn:Eest; simpl; [|done].
  specialize (Htwo f e1 eq_refl).
  set (w1 := {| ext := e1; store := _; bestHeight := _; trace := _ |}).
  rewrite run_bind.
  destruct (rangeKgtnOutputs_aliasing f 0%nat kids
    {| heap := ∅; csvOutputs := []; cltvOutputs := [];
       weightEstimate := lnwallet.AddP2WKHOutput lnwallet.emptyEstimator |} w1)
    as (acc & w2 & -> & Hcsv & Hcltv & Hheap).
  simpl in *. rewrite sweepable_count in Htwo.
  destruct (last kids) as [klast|] eqn:Elast.
  2:{ apply last_None in Elast. subst kids. simpl in Htwo. lia. }
  unfold populateSweepTx.
  rewrite run_bind, run_tryExt.
  destruct (GenSweepScript (ext w2)) as [[pk|e] e3]; simpl; [|done].
  rewrite Hcsv, Hcltv. simpl.
  rewrite run_bind, run_liftResult.
  rewrite (mapM_load_replicate _ _ klast)
    by (rewrite Hheap; apply lookup_insert_eq).
  rewrite run_bind, run_liftResult.
  rewrite (mapM_load_replicate _ _ klast)
    by (rewrite Hheap; apply lookup_insert_eq).
  edestruct unsignedSweepTx_aliased as [_ [err ->]]; [|done].
  lia.
Qed.

(** C4 (as amended).  In [createSweepTx], every pointer appended to
    [csvOutputs] and [cltvOutputs] is the address of the single range
    variable, which after the loop holds the last iterated output; one
    pointer is appended per output that passes the stray filter and has
    one of the four witness types of the switch.  A transaction built from
    two or more such pointers has the previous outpoint of that last
    output in every input and is refused by [CheckTransactionSanity].
    Hence for every class in which at least two outputs pass the stray
    filter and carry one of the four swept witness types, [createSweepTx]
    returns an error instead of a transaction. *)
Theorem createSweepTx_range_variable_aliasing
  (kids : list KidOutput) (h : Z) (w : World) :
  (forall f e1, EstimateFeePerKW 6 (ext w) = (Ok f, e1) ->
     (2 <= length (filter sweepable (strayFilter f kids e1)))%nat) ->
  (forall f w1, exists acc w2,
      rangeKgtnOutputs f 0%nat kids
        {| heap := ∅; csvOutputs := []; cltvOutputs := [];
           weightEstimate := lnwallet.AddP2WKHOutput lnwallet.emptyEstimator |}
        w1 = (Ok acc, w2)
      ∧ Forall (fun p => p = 0%nat ∧ heap acc !! p = last kids)
               (csvOutputs acc ++ cltvOutputs acc)
      ∧ length (csvOutputs acc ++ cltvOutputs acc)
        = length (filter sweepable (strayFilter f kids (ext w1))))
  ∧ (forall pk fee k n m, (2 <= n + m)%nat ->
       let tx := unsignedSweepTx pk fee h (replicate n k) (replicate m k) in
       Forall (fun ti => wire.PreviousOutPoint ti = OutPoint k) (wire.tx_TxIn tx)
       ∧ is_Some (blockchain.CheckTransactionSanity tx))
  ∧ is_Err (createSweepTx kids h w).1.
Proof.
  intros Htwo. split; [|split].
  - intros f w1.
    destruct (rangeKgtnOutputs_aliasing f 0%nat kids
      {| heap := ∅; csvOutputs := []; cltvOutputs := [];
         weightEstimate := lnwallet.AddP2WKHOutput lnwallet.emptyEstimator |} w1)
      as (acc & w2 & Hrun & Hcsv & Hcltv & Hheap).
    exists acc, w2. simpl in *. split; [done|].
    assert (Hlast : heap acc !! 0%nat = last kids).
    { rewrite Hheap. destruct (last kids); [apply lookup_insert_eq|done]. }
    rewrite Hcsv, Hcltv. split.
    + apply Forall_app. split; by apply Forall_replicate.
    + by rewrite length_app, !length_replicate, sweepable_count.
  - intros pk fee k n m Hnm. by apply unsignedSweepTx_aliased.
  - by apply createSweepTx_aliased_error.
Qed.

End SweepProperties.

Lemma createSweepTx_range_variable_aliasing_witness :
  (2 <= length (filter (@nursery.sweepable sim.sdc)
                  (@nursery.strayFilter sim.sdc (sim.cfg 244 None 0) 2500
                     [sim.commitKid; sim.remoteKid] 0%nat)))%nat
  ∧ is_Err (@nursery.createSweepTx sim.sdc sim.wm (sim.cfg 244 None 0)
              [sim.commitKid; sim.remoteKid] 244 (sim.world0 244 None 0)).1.
Proof.
  split; [vm_compute; lia|].
  refine (proj2 (proj2 (@createSweepTx_range_variable_aliasing
            sim.sdc sim.wm (sim.cfg 244 None 0)
            [sim.commitKid; sim.remoteKid] 244 (sim.world0 244 None 0) _))).
  intros f e1 _. vm_compute. lia.
Defined.

(** Two outputs pass the stray filter, the second with a witness type the
    switch of [createSweepTx] skips: a single pointer is appended and a
    transaction is returned. *)
Lemma createSweepTx_two_survivors_counterexample :
  length (@nursery.strayFilter sim.sdc (sim.cfg 244 None 0) 2500
            [sim.commitKid; sim.oddKid] 0%nat) = 2%nat
  ∧ ¬ is_Err (@nursery.createSweepTx sim.sdc sim.wm (sim.cfg 244 None 0)
                [sim.commitKid; sim.oddKid] 244 (sim.world0 244 None 0)).1.
Proof. split; [reflexivity|]. vm_compute. tauto. Qed.

(** C1 (defect of the code).  Scenario S5: the class at height 244 holds
    a commitment output (csv 144) and a remote-timeout output (cltv 244),
    none of them stray.  The specification expects a sweep transaction
    with lock time 244, input 0 with sequence 144 and input 1 with the default
    sequence; [createSweepTx] returns the error of the duplicate-input
    check instead, in either order of the two outputs, because both of
    its pointers denote the range variable.  For a class of one output
    the transaction is the one the specification describes. *)
Theorem createSweepTx_mixed_class_S5 :
  (@nursery.createSweepTx sim.sdc sim.wm (sim.cfg 244 None 0)
     [sim.commitKid; sim.remoteKid] 244 (sim.world0 244 None 0)).1
  = Err ErrDuplicateTxInputs
  ∧ (@nursery.createSweepTx sim.sdc sim.wm (sim.cfg 244 None 0)
       [sim.remoteKid; sim.commitKid] 244 (sim.world0 244 None 0)).1
    = Err ErrDuplicateTxInputs
  ∧ exists tx,
      (@nursery.createSweepTx sim.sdc sim.wm (sim.cfg 244 None 0)
         [sim.commitKid] 244 (sim.world0 244 None 0)).1 = Ok tx
      ∧ wire.Version tx = 2 ∧ wire.LockTime tx = 0
      ∧ (wire.Value <$> wire.tx_TxOut tx) = [500000 - 292]
      ∧ ((fun ti => (wire.PreviousOutPoint ti, wire.Sequence ti))
           <$> wire.tx_TxIn tx)
        = [(sim.outpoint 1 0, 144)].
Proof.
  split; [by vm_compute|]. split; [by vm_compute|].
  eexists. split; [vm_compute; reflexivity|]. by vm_compute.
Qed.

(** C3 (defect of the code).  With a stray filter that cuts the outputs
    worth less than 2000, the class [commitKid; dustKid] has [dustKid]
    diverted and [commitKid] kept.  The specification expects the
    diverted output to be excluded from the inputs of the sweep
    transaction;
    [createSweepTx] returns a transaction whose only input is the
    diverted output, and the kept output is not swept, because the
    pointer to the kept output denotes the range variable, which holds
    the last iterated output. *)
Theorem createSweepTx_sweeps_diverted_output :
  @nursery.strayFilter sim.sdc (sim.cfg 244 None 2000) 2500
    [sim.commitKid; sim.dustKid] 0%nat = [sim.commitKid]
  ∧ exists tx,
      (@nursery.createSweepTx sim.sdc sim.wm (sim.cfg 244 None 2000)
         [sim.commitKid; sim.dustKid] 244 (sim.world0 244 None 2000)).1 = Ok tx
      ∧ (wire.PreviousOutPoint <$> wire.tx_TxIn tx)
        = [@nursery.OutPoint sim.sdc sim.dustKid]
      ∧ (wire.Value <$> wire.tx_TxOut tx) = [1000 - 292].
Proof.
  split; [by vm_compute|].
  eexists. split; [vm_compute; reflexivity|]. by vm_compute.
Qed.

(** ** The incubator *)

Section IncubatorProperties.
Context `{SDC : lnwallet.SignDescCodec} `{WM : lnwallet.WeightModel}
        `{CFG : !nursery.Config}.
Import nursery.

(** *** What a method leaves of the store and adds to the trace *)

Lemma keeps_store_bind {A B} (m : M A) (k : A -> M B) :
  keeps_store m -> (forall a, keeps_store (k a)) -> keeps_store (m ≫= k).
Proof.
  intros Hm Hk w. unfold mbind, M_bind. specialize (Hm w).
  destruct (m w) as [[a|e] w']; simpl in *; [|done].
  by rewrite Hk.
Qed.

Lemma emits_bind P {A B} (m : M A) (k : A -> M B) :
  emits P m -> (forall a, emits P (k a)) -> emits P (m ≫= k).
Proof.
  intros Hm Hk w. unfold mbind, M_bind. destruct (Hm w) as (evs & Ht & HP).
  destruct (m w) as [[a|e] w']; simpl in *; [|by exists evs].
  destruct (Hk a w') as (evs' & Ht' & HP').
  exists (evs ++ evs'). rewrite Ht', Ht, app_assoc. split; [done|].
  by apply Forall_app.
Qed.

Lemma emits_nothing P {A} (m : M A) :
  (forall w, trace (m w).2 = trace w) -> emits P m.
Proof. intros H w. exists []. by rewrite H, app_nil_r. Qed.

Lemma keeps_store_ret {A} (a : A) : keeps_store (mret a).
Proof. done. Qed.
Lemma emits_ret P {A} (a : A) : emits P (mret a).
Proof. by apply emits_nothing. Qed.
Lemma keeps_store_fail {A} e : keeps_store (fail (A:=A) e).
Proof. done. Qed.
Lemma emits_fail P {A} e : emits P (fail (A:=A) e).
Proof. by apply emits_nothing. Qed.
Lemma keeps_store_liftResult {A} (r : Result A) : keeps_store (liftResult r).
Proof. done. Qed.
Lemma emits_liftResult P {A} (r : Result A) : emits P (liftResult r).
Proof. by apply emits_nothing. Qed.
Lemma keeps_store_emit ev : keeps_store (emit ev).
Proof. done. Qed.
Lemma emits_emit (P : Event -> Prop) ev : P ev -> emits P (emit ev).
Proof. intros HP w. exists [ev]. split; [done|]. by constructor. Qed.
Lemma keeps_store_callExt {A} ev (f : Ext -> A * Ext) :
  keeps_store (callExt ev f).
Proof. intros w. unfold callExt. by destruct (f (ext w)). Qed.
Lemma emits_callExt (P : Event -> Prop) {A} ev (f : Ext -> A * Ext) :
  P ev -> emits P (callExt ev f).
Proof.
  intros HP w. exists [ev]. unfold callExt. destruct (f (ext w)).
  split; [done|]. by constructor.
Qed.
Lemma keeps_store_tryExt {A} ev (f : Ext -> Result A * Ext) :
  keeps_store (tryExt ev f).
Proof.
  apply keeps_store_bind; [apply keeps_store_callExt|].
  intros. apply keeps_store_liftResult.
Qed.
Lemma emits_tryExt (P : Event -> Prop) {A} ev (f : Ext -> Result A * Ext) :
  P ev -> emits P (tryExt ev f).
Proof.
  intros. apply emits_bind; [by apply emits_callExt|].
  intros. apply emits_liftResult.
Qed.
Lemma keeps_store_getStore : keeps_store getStore.
Proof. done. Qed.
Lemma emits_getStore P : emits P getStore.
Proof. by apply emits_nothing. Qed.
Lemma emits_putStore P s : emits P (putStore s).
Proof. by apply emits_nothing. Qed.
Lemma keeps_store_setBestHeight h : keeps_store (setBestHeight h).
Proof. done. Qed.
Lemma emits_setBestHeight P h : emits P (setBestHeight h).
Proof. by apply emits_nothing. Qed.
Lemma keeps_store_checkErr e : keeps_store (checkErr e).
Proof. by destruct e. Qed.
Lemma emits_checkErr P e : emits P (checkErr e).
Proof. destruct e; [apply emits_fail|apply emits_ret]. Qed.

Create HintDb frames.
#[local] Hint Resolve keeps_store_ret keeps_store_fail keeps_store_liftResult
  keeps_store_emit keeps_store_callExt keeps_store_tryExt keeps_store_getStore
  keeps_store_setBestHeight keeps_store_checkErr
  emits_ret emits_fail emits_liftResult emits_getStore emits_putStore
  emits_setBestHeight emits_checkErr : frames.

Ltac frames_step :=
  lazymatch goal with
  | |- keeps_store (_ ≫= _) => apply keeps_store_bind; [|intros ?]
  | |- emits _ (_ ≫= _) => apply emits_bind; [|intros ?]
  | |- keeps_store (match ?x with _ => _ end) => destruct x
  | |- emits _ (match ?x with _ => _ end) => destruct x
  | |- emits _ (emit _) => apply emits_emit; simpl; try done
  | |- emits _ (callExt _ _) => apply emits_callExt; simpl; try done
  | |- emits _ (tryExt _ _) => apply emits_tryExt; simpl; try done
  | |- _ => solve [eauto with frames]
  end.
Ltac frames := repeat frames_step.

Lemma rangeKgtnOutputs_keeps f i kids acc :
  keeps_store (rangeKgtnOutputs f i kids acc).
Proof. revert acc. induction kids; intros; simpl; frames. Qed.

Lemma addWitnesses_keeps hc i ins tx : keeps_store (addWitnesses hc i ins tx).
Proof. revert i tx. induction ins; intros; simpl; frames. Qed.

Lemma createSweepTx_keeps kids h : keeps_store (createSweepTx kids h).
Proof.
  unfold createSweepTx, populateSweepTx.
  frames; auto using rangeKgtnOutputs_keeps, addWitnesses_keeps.
Qed.

Lemma registerSweepConf_keeps tx kids h :
  keeps_store (registerSweepConf tx kids h).
Proof. unfold registerSweepConf. frames. Qed.

Lemma registerSweepConf_emits tx kids h :
  emits rebroadcast_only (registerSweepConf tx kids h).
Proof. unfold registerSweepConf. frames; by intros []. Qed.

Lemma sweepMatureOutputs_keeps h tx kids :
  keeps_store (sweepMatureOutputs h tx kids).
Proof. unfold sweepMatureOutputs. frames; apply registerSweepConf_keeps. Qed.

Lemma sweepCribOutputs_keeps h cribs : keeps_store (sweepCribOutputs h cribs).
Proof.
  induction cribs as [|b cribs IH]; simpl; [frames|].
  apply keeps_store_bind; [|done].
  unfold sweepCribOutput, registerTimeoutConf. frames.
Qed.

Lemma sweepCribOutputs_emits h cribs :
  emits rebroadcast_only (sweepCribOutputs h cribs).
Proof.
  induction cribs as [|b cribs IH]; simpl; [frames|].
  apply emits_bind; [|done].
  unfold sweepCribOutput, registerTimeoutConf. frames; by intros [].
Qed.

Lemma regraduateClass_keeps h : keeps_store (regraduateClass h).
Proof.
  unfold regraduateClass. apply keeps_store_bind; [done|intros s].
  destruct (FetchClass h s) as [[finalTx kids] cribs].
  apply keeps_store_bind; [|intros; apply sweepCribOutputs_keeps].
  destruct finalTx; [apply sweepMatureOutputs_keeps|done].
Qed.

(** *** Stored sweep transactions are never replaced *)

Lemma stable_refl s : stable s s.
Proof. intros H. split; [done|by intros ? ? ?]. Qed.

Lemma stable_trans s1 s2 s3 : stable s1 s2 -> stable s2 s3 -> stable s1 s3.
Proof.
  intros H12 H23 H1.
  destruct (H12 H1) as [H2 K12]. destruct (H23 H2) as [H3 K23].
  split; [done|]. intros h tx Hh. by apply K23, K12.
Qed.

Lemma stable_same s s' :
  finalized s' = finalized s ->
  lastFinalizedHeight s' = lastFinalizedHeight s -> stable s s'.
Proof.
  intros Hf Hl Hinv. split.
  - intros h tx. rewrite Hf, Hl. apply Hinv.
  - intros h tx. by rewrite Hf.
Qed.

Lemma store_stable_bind {A B} (m : M A) (k : A -> M B) :
  store_stable m -> (forall a, store_stable (k a)) -> store_stable (m ≫= k).
Proof.
  intros Hm Hk w. unfold mbind, M_bind. specialize (Hm w).
  destruct (m w) as [[a|e] w']; simpl in *; [|done].
  eapply stable_trans; [done|apply Hk].
Qed.

Lemma keeps_store_stable {A} (m : M A) : keeps_store m -> store_stable m.
Proof. intros H w. rewrite H. apply stable_refl. Qed.

(** The guard of [FinalizeKinder] is what keeps a stored transaction. *)
Lemma FinalizeKinder_stable h tx s s' :
  FinalizeKinder h tx s = Ok s' -> stable s s'.
Proof.
  unfold FinalizeKinder. case_decide as Hg; [done|]. intros [= <-] Hinv.
  split.
  - intros h' tx'. simpl. destruct (decide (h' = h)) as [->|Hne]; [lia|].
    destruct tx; rewrite ?lookup_insert_ne, ?lookup_delete_ne by done;
      intros Hl%Hinv; lia.
  - intros h' tx' Hl. simpl. destruct (decide (h' = h)) as [->|Hne].
    + exfalso. apply Hg. split; [by eapply Hinv|by eexists].
    + by destruct tx; rewrite ?lookup_insert_ne, ?lookup_delete_ne.
Qed.

Lemma callFinalizeKinder_stable h tx : store_stable (callFinalizeKinder h tx).
Proof.
  intros w.
  unfold callFinalizeKinder, mbind, M_bind, emit, getStore, liftResult, putStore.
  simpl. destruct (FinalizeKinder h tx (store w)) as [s'|e] eqn:E; simpl.
  - by eapply FinalizeKinder_stable.
  - apply stable_refl.
Qed.

Lemma callGraduateHeight_stable h : store_stable (callGraduateHeight h).
Proof. intros w. by apply stable_same. Qed.

Lemma graduateClass_stable h : store_stable (graduateClass h).
Proof.
  unfold graduateClass.
  apply store_stable_bind; [by apply keeps_store_stable|intros _].
  apply store_stable_bind; [by apply keeps_store_stable|intros s].
  destruct (FetchClass h s) as [[finalTx kids] cribs].
  apply store_stable_bind.
  { case_decide; [|by apply keeps_store_stable].
    apply store_stable_bind.
    - case_decide; apply keeps_store_stable; [|done].
      apply keeps_store_bind; [apply createSweepTx_keeps|done].
    - intros tx. apply store_stable_bind; [apply callFinalizeKinder_stable|].
      intros. by apply keeps_store_stable. }
  intros tx. apply store_stable_bind.
  { destruct tx; apply keeps_store_stable; [apply sweepMatureOutputs_keeps|done]. }
  intros _. apply store_stable_bind.
  { apply keeps_store_stable, sweepCribOutputs_keeps. }
  intros _. apply callGraduateHeight_stable.
Qed.

Lemma step_stable w w' : step w w' -> stable (store w) (store w').
Proof.
  destruct 1; simpl; try (by apply stable_same).
  - apply graduateClass_stable.
  - rewrite regraduateClass_keeps. apply stable_refl.
  - unfold PreschoolToKinder in *. case_decide; [done|]. simplify_eq.
    by apply stable_same.
Qed.

Lemma steps_stable w w' : rtc step w w' -> stable (store w) (store w').
Proof.
  induction 1 as [|w1 w2 w3 H12 _ IH]; [apply stable_refl|].
  eapply stable_trans; [by apply step_stable|done].
Qed.

Lemma emits_callExt_bind P {A B} ev (f : Ext -> A * Ext) (k : A -> M B) w :
  (forall a, emits P (k a)) ->
  exists evs,
    trace ((callExt ev f ≫= k) w).2 = trace w ++ ev :: evs ∧ Forall P evs.
Proof.
  intros Hk. unfold mbind, M_bind, callExt. destruct (f (ext w)) as [a e]. simpl.
  destruct (Hk a {| ext := e; store := store w; bestHeight := bestHeight w;
                    trace := trace w ++ [ev] |}) as (evs & Ht & HP).
  exists evs. simpl in Ht. by rewrite Ht, <- app_assoc.
Qed.

(** Graduating a class that was finalized before: the stored transaction,
    if there is one, is broadcast first, and nothing is built, signed or
    finalized. *)
Lemma graduateClass_replay h w :
  ¬ (lastFinalizedHeight (store w) < h) ->
  exists evs,
    trace (graduateClass h w).2 =
      trace w ++ match finalized (store w) !! h with
                 | Some tx => [EvPublishTransaction tx]
                 | None => []
                 end ++ evs
    ∧ Forall rebroadcast_only evs.
Proof.
  intros Hle. unfold graduateClass.
  unfold mbind at 1 2, M_bind at 1 2, setBestHeight, getStore. simpl.
  rewrite decide_False by done.
  unfold mbind at 1, M_bind at 1. simpl.
  set (w1 := {| ext := ext w; store := store w; bestHeight := h;
                trace := trace w |}).
  change (trace w) with (trace w1). change (store w) with (store w1).
  assert (Hrest : forall u : unit, emits rebroadcast_only
            (sweepCribOutputs h
               (filter (λ b : BabyOutput, expiry b = h) (crib (store w1)));;
             callGraduateHeight h)).
  { intros _. apply emits_bind; [apply sweepCribOutputs_emits|intros _].
    unfold callGraduateHeight. frames. by intros []. }
  destruct (finalized (store w1) !! h) as [tx|].
  - unfold sweepMatureOutputs. rewrite M_bind_assoc.
    apply emits_callExt_bind. intros err. apply emits_bind; [|done].
    destruct err as [e|]; [case_decide|];
      auto using registerSweepConf_emits with frames.
  - rewrite M_ret_bind. apply (Hrest tt).
Qed.

(** C2.  In every state, [graduateClass(h)] calls [FinalizeKinder], and
    builds or signs a sweep transaction, only when [h] is strictly greater
    than [LastFinalizedHeight].  In every run of the nursery from an empty
    store, once [FetchClass(h)] has returned a non-nil finalized
    transaction, every later [FetchClass(h)] returns the same
    transaction, whatever the nursery does in between; and
    [graduateClass(h)] then broadcasts exactly that stored transaction,
    without building, signing or finalizing another one. *)
Theorem graduateClass_txid_stability
  (w0 w w' : World) (h : Z) (tx : wire.MsgTx) :
  store w0 = emptyStore -> rtc step w0 w ->
  (FetchClass h (store w)).1.1 = Some tx -> rtc step w w' ->
  (forall (w1 : World) h' ev,
     ev ∈ drop (length (trace w1)) (trace (graduateClass h' w1).2) ->
     builds_sweep ev -> lastFinalizedHeight (store w1) < h')
  ∧ (FetchClass h (store w')).1.1 = Some tx
  ∧ exists evs,
      trace (graduateClass h w').2
      = trace w' ++ EvPublishTransaction tx :: evs
      ∧ Forall rebroadcast_only evs.
Proof.
  intros Hempty Hrun Hfetch Hlater.
  assert (Hinv0 : store_inv (store w0)).
  { rewrite Hempty. intros h' tx'. simpl. by rewrite lookup_empty. }
  destruct (steps_stable _ _ Hrun Hinv0) as [Hinv _].
  destruct (steps_stable _ _ Hlater Hinv) as [Hinv' Hkept].
  assert (Hstored : finalized (store w') !! h = Some tx) by by apply Hkept.
  split; [|split; [done|]].
  - intros w1 h' ev Hev Hbuilds.
    destruct (decide (lastFinalizedHeight (store w1) < h')) as [|Hle]; [done|].
    destruct (graduateClass_replay h' w1 Hle) as (evs & Ht & HP).
    rewrite Ht, drop_app_length in Hev.
    apply elem_of_app in Hev as [Hev|Hev].
    + destruct (finalized (store w1) !! h'); [|by apply elem_of_nil in Hev].
      apply list_elem_of_singleton in Hev. by subst ev.
    + rewrite Forall_forall in HP. by destruct (HP ev Hev).
  - assert (Hle : ¬ lastFinalizedHeight (store w') < h).
    { apply Hinv' in Hstored. lia. }
    destruct (graduateClass_replay h w' Hle) as (evs & Ht & HP).
    rewrite Hstored in Ht. by exists evs.
Qed.

(** *** Replaying the missed heights *)

Lemma graduateMissed_replay n : forall fuel cur best w,
  cur + Z.of_nat n = best + 1 -> 0 <= cur -> best < 4294967295 ->
  (n < fuel)%nat ->
  graduateMissed fuel cur best w
  = Some (replayGraduate (seqZ cur (Z.of_nat n)) w).
Proof.
  induction n as [|n IH]; intros fuel cur best w Hn Hcur Hbest Hfuel;
    (destruct fuel as [|fuel]; [lia|]); simpl.
  - by rewrite decide_False by lia.
  - rewrite decide_True by lia.
    rewrite seqZ_cons by lia. simpl. rewrite run_bind.
    destruct (graduateClass cur w) as [[[]|e] w']; [|done].
    rewrite wrap_u32_small by lia.
    rewrite (IH fuel (cur + 1) best w') by lia.
    do 3 f_equal; lia.
Qed.

Lemma HeightsBelowOrEqual_bound G s :
  Forall (fun x => x <= G) (HeightsBelowOrEqual G s).
Proof.
  unfold HeightsBelowOrEqual. rewrite merge_sort_Permutation.
  apply Forall_forall. intros x Hx.
  apply (proj1 (elem_of_remove_dups _ _)) in Hx.
  by apply list_elem_of_filter in Hx as [? _].
Qed.


(** *** Broadcast errors *)

Lemma sweepMatureOutputs_broadcast h tx kids w err e' :
  PublishTransaction tx (ext w) = (err, e') ->
  let w1 := {| ext := e'; store := store w; bestHeight := bestHeight w;
               trace := trace w ++ [EvPublishTransaction tx] |} in
  (err = None ∨ err = Some ErrDoubleSpend ->
     sweepMatureOutputs h tx kids w = registerSweepConf tx kids h w1)
  ∧ (forall e, err = Some e -> e ≠ ErrDoubleSpend ->
       sweepMatureOutputs h tx kids w = (Err e, w1)).
Proof.
  intros Hpub w1. unfold sweepMatureOutputs. rewrite run_bind.
  unfold callExt. rewrite Hpub. fold w1. split.
  - intros [->| ->]; [done|]. by rewrite decide_False by (intros H; by apply H).
  - intros e -> Hne. by rewrite decide_True.
Qed.

Lemma sweepCribOutput_broadcast h baby tx w err e' :
  timeoutTx baby = Some tx ->
  PublishTransaction tx (ext w) = (err, e') ->
  let w1 := {| ext := e'; store := store w; bestHeight := bestHeight w;
               trace := trace w ++ [EvPublishTransaction tx] |} in
  (err = None ∨ err = Some ErrDoubleSpend ->
     sweepCribOutput h baby w = registerTimeoutConf baby tx h w1)
  ∧ (forall e, err = Some e -> e ≠ ErrDoubleSpend ->
       sweepCribOutput h baby w = (Err e, w1)).
Proof.
  intros Htx Hpub w1. unfold sweepCribOutput. rewrite Htx, run_bind.
  unfold callExt. rewrite Hpub. fold w1. split.
  - intros [->| ->]; [done|]. by rewrite decide_False by (intros H; by apply H).
  - intros e -> Hne. by rewrite decide_True.
Qed.

(** An error of the broadcast of the stored sweep transaction ends
    [graduateClass]: the height is not graduated. *)
Lemma graduateClass_broadcast_abort h tx w e e' :
  ¬ (lastFinalizedHeight (store w) < h) ->
  finalized (store w) !! h = Some tx ->
  PublishTransaction tx (ext w) = (Some e, e') -> e ≠ ErrDoubleSpend ->
  (graduateClass h w).1 = Err e
  ∧ store (graduateClass h w).2 = store w.
Proof.
  intros Hle Hfin Hpub Hne.
  assert (graduateClass h w
          = (Err e, {| ext := e'; store := store w; bestHeight := h;
                       trace := trace w ++ [EvPublishTransaction tx] |}))
    as ->; [|done].
  unfold graduateClass.
  unfold mbind at 1 2, M_bind at 1 2, setBestHeight, getStore. simpl.
  rewrite decide_False by done.
  unfold mbind at 1, M_bind at 1. simpl. rewrite Hfin.
  rewrite run_bind.
  set (w1 := {| ext := ext w; store := store w; bestHeight := h;
                trace := trace w |}).
  destruct (sweepMatureOutputs_broadcast h tx
              (filter (λ hk : Z * KidOutput, hk.1 = h) (kndr (store w))).*2
              w1 (Some e) e' Hpub) as [_ Herr].
  by rewrite (Herr e eq_refl Hne).
Qed.


End IncubatorProperties.

Lemma sample_run_reaches_finalized :
  rtc (@nursery.step sim.sdc sim.wm (sim.cfg 244 None 0))
      (sim.world0 244 None 0) sim.worldFinalized.
Proof.
  eapply rtc_l.
  { exact (@nursery.step_Incubate sim.sdc sim.wm (sim.cfg 244 None 0)
             [sim.commitKid] [] (sim.world0 244 None 0)). }
  eapply rtc_l.
  { exact (@nursery.step_PreschoolToKinder sim.sdc sim.wm (sim.cfg 244 None 0)
             sim.commitKid sim.storeKinder sim.worldIncubated eq_refl). }
  eapply rtc_l; [|apply rtc_refl].
  exact (@nursery.step_graduateClass sim.sdc sim.wm (sim.cfg 244 None 0)
           244 sim.worldKinder).
Qed.

Lemma sample_run_restarts :
  rtc (@nursery.step sim.sdc sim.wm (sim.cfg 244 None 0))
      sim.worldFinalized
      (@nursery.graduateClass sim.sdc sim.wm (sim.cfg 244 None 0)
         245 sim.worldRestarted).2.
Proof.
  eapply rtc_l.
  { exact (@nursery.step_environment sim.sdc sim.wm (sim.cfg 244 None 0)
             7%nat 0 [] sim.worldFinalized). }
  eapply rtc_l; [|apply rtc_refl].
  exact (@nursery.step_graduateClass sim.sdc sim.wm (sim.cfg 244 None 0)
           245 sim.worldRestarted).
Qed.

Lemma graduateClass_txid_stability_witness :
  (nursery.store (sim.world0 244 None 0) = nursery.emptyStore
   ∧ (nursery.FetchClass 244 (nursery.store sim.worldFinalized)).1.1
     = Some sim.finalTx244)
  ∧ (nursery.FetchClass 244
       (nursery.store
          (@nursery.graduateClass sim.sdc sim.wm (sim.cfg 244 None 0)
             245 sim.worldRestarted).2)).1.1
    = Some sim.finalTx244
  ∧ exists evs,
      nursery.trace
        (@nursery.graduateClass sim.sdc sim.wm (sim.cfg 244 None 0) 244
           (@nursery.graduateClass sim.sdc sim.wm (sim.cfg 244 None 0)
              245 sim.worldRestarted).2).2
      = nursery.trace
          (@nursery.graduateClass sim.sdc sim.wm (sim.cfg 244 None 0)
             245 sim.worldRestarted).2
        ++ nursery.EvPublishTransaction sim.finalTx244 :: evs
      ∧ Forall nursery.rebroadcast_only evs.
Proof.
  assert (Hfetch : (nursery.FetchClass 244
                      (nursery.store sim.worldFinalized)).1.1
                   = Some sim.finalTx244) by (vm_compute; reflexivity).
  split; [split; [reflexivity|exact Hfetch]|].
  exact (proj2 (@graduateClass_txid_stability sim.sdc sim.wm
                  (sim.cfg 244 None 0) (sim.world0 244 None 0)
                  sim.worldFinalized _ 244 sim.finalTx244
                  eq_refl sample_run_reaches_finalized Hfetch
                  sample_run_restarts)).
Defined.




(** ** The stray output pool *)

Section PoolProperties.
Context `{WM : lnwallet.WeightModel} `{CFG : !strayoutputpool.PoolConfig}.
Import strayoutputpool.

Lemma prun_bind {A B} (m : P A) (k : A -> P B) e :
  (m ≫= k) e = match m e with
                | (Ok a, e') => k a e'
                | (Err err, e') => (Err err, e')
                end.
Proof. done. Qed.

(** The loop of [genSweepTx]: one input per stray output, in order, each
    with the witness generated for it, on top of what was there. *)
Lemma rangeStrayOutputs_spec hc outs : forall i st e,
  signer_total -> length (wire.tx_TxIn (txn st)) = i ->
  exists st' e' news,
    rangeStrayOutputs hc i outs st e = (Ok st', e')
    ∧ totalAmt st' = totalOf (totalAmt st) outs
    ∧ txEstimator st' = estimateOf (txEstimator st) outs
    ∧ wire.Version (txn st') = wire.Version (txn st)
    ∧ wire.LockTime (txn st') = wire.LockTime (txn st)
    ∧ wire.tx_TxOut (txn st') = wire.tx_TxOut (txn st)
    ∧ wire.tx_TxIn (txn st') = wire.tx_TxIn (txn st) ++ news
    ∧ length news = length outs
    ∧ forall j o ti, outs !! j = Some o -> news !! j = Some ti ->
                     claims hc (i + j) o ti.
Proof.
  induction outs as [|o outs IH]; intros i st e Hsig Hlen.
  - exists st, e, []. simpl. rewrite app_nil_r. repeat split; try done.
  - simpl. rewrite prun_bind.
    set (tx0 := wire.AddTxIn (strayTxIn (Output o)) (txn st)).
    destruct (Hsig (Output o) tx0 hc i e) as (wit & e1 & Hw). rewrite Hw.
    rewrite prun_bind. unfold wire.setTxInWitness.
    assert (Hi : wire.tx_TxIn tx0 !! i = Some (strayTxIn (Output o))).
    { subst tx0. simpl. rewrite lookup_app_r by lia.
      by rewrite Hlen, Nat.sub_diag. }
    rewrite Hi.
    set (st1 := {| totalAmt := _; txEstimator := _; txn := _ |}).
    destruct (IH (S i) st1 e1 Hsig)
      as (st' & e' & news & Hrun & Ht & He & Hv & Hl & Ho & Hin & Hn & Hc).
    { subst st1 tx0. simpl. rewrite length_insert, length_app. simpl. lia. }
    exists st', e', (wire.setWitness wit (strayTxIn (Output o)) :: news).
    rewrite Hrun. split; [done|]. split; [by rewrite Ht|].
    split; [by rewrite He|]. split; [by rewrite Hv|].
    split; [by rewrite Hl|]. split; [by rewrite Ho|].
    split.
    { rewrite Hin. subst st1 tx0. simpl.
      rewrite <- Hlen at 1. rewrite insert_app_r_alt by lia.
      rewrite Nat.sub_diag. simpl. by rewrite <- app_assoc. }
    split; [simpl; by rewrite Hn|].
    intros j o' ti Hj Hti. destruct j as [|j]; simpl in Hj, Hti.
    + injection Hj as <-. injection Hti as <-.
      split; [done|]. exists tx0, e, e1. by rewrite Nat.add_0_r.
    + replace (i + S j)%nat with (S i + j)%nat by lia. by eapply Hc.
Qed.

(** The running total, which wraps at every step, is the sum of the
    amounts taken as an [int64]. *)
Lemma totalOf_sum a outs :
  wrap_i64 (totalOf a outs)
  = wrap_i64 (a + foldr (fun o s => Amount (Output o) + s) 0 outs).
Proof.
  revert a. induction outs as [|o outs IH]; intros a; simpl.
  - by rewrite Z.add_0_r.
  - unfold totalOf in *. simpl. rewrite IH, wrap_i64_add_l. f_equal. ring.
Qed.


End PoolProperties.

